(** * jiradep: the dependency-graph builder of [main.py], shallowly embedded.

    The issue tracker is reached through three HTTP endpoints, given here as
    section variables.  A pygraphviz [AGraph(strict=False, directed=True)] is a
    list of nodes (key and attribute dictionary, in creation order) and a list
    of edges: a non-strict graph keeps parallel edges, so the edge list is a
    multiset of (tail, head, attributes). *)

From Stdlib Require Import String List ZArith Bool Lia Ascii.
Import ListNotations.
Open Scope string_scope.
Open Scope list_scope.

(** ** Python values that the code inspects *)

(** A call that may raise: [Val v] returned [v], [Exc] raised. *)
Inductive exc (A : Type) : Type :=
| Val (a : A)
| Exc.
Arguments Val {A} a.
Arguments Exc {A}.

(** The exceptions that end a run. *)
Inductive exn : Type :=
| ERequest      (* raised by [requests.get] and not caught *)
| ETypeError    (* [raise()] in an [except], or [None["fields"]] *)
| EIndexError.  (* [graph.nodes()[0]] on an empty graph *)

(** How a pass ended.  [NoFuel] is the model's own bound on recursion depth. *)
Inductive outcome : Type :=
| Done
| Raise (e : exn)
| NoFuel.

(** Python values compared by [in]: strings and pairs. *)
Inductive pyval : Type :=
| PStr (s : string)
| PTup (a b : pyval).

Definition pyval_eq_dec (x y : pyval) : {x = y} + {x <> y}.
Proof. decide equality; apply string_dec. Defined.

(** [v in l] *)
Definition py_in (v : pyval) (l : list pyval) : bool :=
  existsb (fun x => if pyval_eq_dec v x then true else false) l.

(** ** Issue records (the parts of the JSON the code reads) *)

(** [link['outwardIssue']] / [link['inwardIssue']]: key and [fields.summary]. *)
Record linked_issue : Type := mk_linked {
  li_key : string;
  li_summary : string
}.

(** One entry of [fields.issuelinks]; [type_outward] is [link['type']['outward']]. *)
Record link : Type := mk_link {
  outwardIssue : option linked_issue;
  inwardIssue : option linked_issue;
  type_outward : string
}.

(** An issue: [key], [fields.status.name], [fields.issuelinks].  The code
    never reads subtasks. *)
Record issue : Type := mk_issue {
  key : string;
  status_name : string;
  issuelinks : list link
}.

(** An HTTP response of the issue endpoint: status code and parsed body
    (the body is read only when the status is 200). *)
Record response : Type := mk_response {
  status_code : Z;
  body : issue
}.

(** ** Graphs *)

Definition attrs := list (string * string).

(** [node.attr[k] = v]: overwrite in place, or append a new key. *)
Fixpoint attr_set (k v : string) (a : attrs) : attrs :=
  match a with
  | [] => [(k, v)]
  | (k', v') :: r => if String.eqb k k' then (k, v) :: r else (k', v') :: attr_set k v r
  end.

Fixpoint attr_get (k : string) (a : attrs) : option string :=
  match a with
  | [] => None
  | (k', v') :: r => if String.eqb k k' then Some v' else attr_get k r
  end.

(** [attr.update(kvs)] *)
Definition attrs_update (kvs : attrs) (a : attrs) : attrs :=
  fold_left (fun a kv => attr_set (fst kv) (snd kv) a) kvs a.

Record edge : Type := mk_edge {
  e_src : string;
  e_tgt : string;
  e_attrs : attrs
}.

Record graph : Type := mk_graph {
  nodes : list (string * attrs);
  edges : list edge
}.

Definition empty_graph : graph := mk_graph [] [].

Definition node_keys (g : graph) : list string := map fst (nodes g).

Definition has_node (n : string) (g : graph) : bool :=
  existsb (String.eqb n) (node_keys g).

(** [graph.add_node(n, **kvs)]: an existing node gets its attributes
    updated, a new one is created with them. *)
Definition add_node (n : string) (kvs : attrs) (g : graph) : graph :=
  if has_node n g
  then mk_graph (map (fun p => if String.eqb (fst p) n then (fst p, attrs_update kvs (snd p)) else p)
                     (nodes g)) (edges g)
  else mk_graph (nodes g ++ [(n, attrs_update kvs [])]) (edges g).

(** [graph.add_edge(u, v, **kvs)] on a non-strict graph: missing end nodes are
    created, and a new edge is always added, even beside an equal one. *)
Definition add_edge (u v : string) (kvs : attrs) (g : graph) : graph :=
  let g := if has_node u g then g else add_node u [] g in
  let g := if has_node v g then g else add_node v [] g in
  mk_graph (nodes g) (edges g ++ [mk_edge u v kvs]).

(** [graph.edges()] as Python values: a list of (tail, head) tuples. *)
Definition edges_py (g : graph) : list pyval :=
  map (fun e => PTup (PStr (e_src e)) (PStr (e_tgt e))) (edges g).

Definition edge_pairs (g : graph) : list (string * string) :=
  map (fun e => (e_src e, e_tgt e)) (edges g).

Definition pair_eq_dec (x y : string * string) : {x = y} + {x <> y}.
Proof. decide equality; apply string_dec. Defined.

Definition newline : string := String (ascii_of_nat 10) EmptyString.

(** The walk's state: the graph, the closure's [seen] list, and the keys
    printed by [get_issue] ("Fetching " + key), in order. *)
Record st : Type := mk_st {
  st_graph : graph;
  seen : list string;
  fetched : list string
}.

Definition set_graph (g : graph) (s : st) : st := mk_st g (seen s) (fetched s).
Definition mark_seen (k : string) (s : st) : st := mk_st (st_graph s) (seen s ++ [k]) (fetched s).
Definition log_fetch (k : string) (s : st) : st := mk_st (st_graph s) (seen s) (fetched s ++ [k]).

Section Tracker.

(** [requests.get] on [server_url + "/rest/agile/1.0/issue/" + key]. *)
Variable http_issue : string -> exc response.
(** [requests.get] on [server_url + "/rest/agile/1.0/epic/" + key]: status code. *)
Variable http_epic : string -> exc Z.
(** [requests.get] on [server_url + "/rest/agile/1.0/epic/" + key + "/issue"]:
    status code and the body's ["issues"] list. *)
Variable http_epic_issues : string -> exc (Z * list issue).

(** [get_issue] of [fetcher_factory]: the body on 200, [None] otherwise; an
    exception of [requests.get] propagates. *)
Definition get_issue (k : string) : exc (option issue) :=
  match http_issue k with
  | Exc => Exc
  | Val r => if Z.eqb (status_code r) 200 then Val (Some (body r)) else Val None
  end.

(** ** [walk] (lines 49-75) *)

(** One [if] of lines 62-71: the candidate edge (u -> v) towards or from the
    far end [far] of a link.  When the pair is not yet among [graph.edges()],
    the far end's node is added (or updated) with its label, the edge is
    added, and the far end's key is collected as a child. *)
Definition add_far_end (gc : graph * list string) (far : linked_issue) (u v lbl : string)
  : graph * list string :=
  let '(g, children) := gc in
  if negb (py_in (PTup (PStr u) (PStr v)) (edges_py g))
  then (add_edge u v [("label", lbl)]
          (add_node (li_key far) [("style", "filled");
                                  ("label", String.append (li_key far) (String.append newline (li_summary far)));
                                  ("penwidth", "2.0")] g),
        children ++ [li_key far])
  else (g, children).

(** The loop body of lines 62-71 for one [link] of [issue]: the outward
    target B gives (A -> B), the inward target C gives (C -> A), both labelled
    [link['type']['outward']]. *)
Definition add_link (i : issue) (l : link) (gc : graph * list string) : graph * list string :=
  let A := key i in
  let gc := match outwardIssue l with
            | None => gc
            | Some o => add_far_end gc o A (li_key o) (type_outward l)
            end in
  match inwardIssue l with
  | None => gc
  | Some c => add_far_end gc c (li_key c) A (type_outward l)
  end.

(** [for link in issue['fields']['issuelinks']: ...] *)
Fixpoint add_links (i : issue) (ls : list link) (gc : graph * list string) : graph * list string :=
  match ls with
  | [] => gc
  | l :: r => add_links i r (add_link i l gc)
  end.

(** [for child in (x for x in children if x not in seen): walk(child, graph)]:
    the generator reads [seen] lazily, after the earlier children's walks. *)
Fixpoint walk_children (w : string -> st -> outcome * st) (cs : list string) (s : st)
  : outcome * st :=
  match cs with
  | [] => (Done, s)
  | c :: cs' =>
      if existsb (String.eqb c) (seen s) then walk_children w cs' s
      else match w c s with
           | (Done, s') => walk_children w cs' s'
           | r => r
           end
  end.

(** [walk(issue_key, graph)]; [fuel] bounds the recursion depth. *)
Fixpoint walk (fuel : nat) (issue_key : string) (s : st) : outcome * st :=
  match fuel with
  | O => (NoFuel, s)
  | S f =>
      let s := log_fetch issue_key s in
      match get_issue issue_key with
      | Exc => (Raise ETypeError, s)
      | Val None => (Raise ETypeError, s)
      | Val (Some i) =>
          let s := mark_seen issue_key s in
          let '(g, children) := add_links i (issuelinks i) (st_graph s, []) in
          walk_children (walk f) children (set_graph g s)
      end
  end.

(** [add_dependencies_to_graph(graph, get_issue)]: a fresh [seen], and the
    walk from [graph.nodes()[0]]. *)
Definition add_dependencies_to_graph (fuel : nat) (g : graph) : outcome * st :=
  match nodes g with
  | [] => (Raise EIndexError, mk_st g [] [])
  | (n, _) :: _ => walk fuel n (mk_st g [] [])
  end.

(** ** [update_shape_on_epics] (lines 84-90) *)

Fixpoint shape_nodes (ns : list (string * attrs)) : outcome * list (string * attrs) :=
  match ns with
  | [] => (Done, [])
  | (n, a) :: r =>
      match http_epic n with
      | Exc => (Raise ERequest, ns)
      | Val code =>
          let a' := if Z.eqb code 200 then attr_set "shape" "folder" a else a in
          let '(o, r') := shape_nodes r in (o, (n, a') :: r')
      end
  end.

Definition update_shape_on_epics (g : graph) : outcome * graph :=
  let '(o, ns) := shape_nodes (nodes g) in (o, mk_graph ns (edges g)).

(** ** [get_issues_in_epic] and [add_issues_to_graph] (lines 94-110) *)

Definition get_issues_in_epic (epic_key : string) : exc (option (list issue)) :=
  match http_epic_issues epic_key with
  | Exc => Exc
  | Val (code, issues) => if Z.eqb code 200 then Val (Some issues) else Val None
  end.

(** [if(issue["key"]) not in graph.edges()]: a string tested against the
    list of edge tuples. *)
Fixpoint add_epic_issues (epic_key : string) (issues : list issue) (g : graph) : graph :=
  match issues with
  | [] => g
  | i :: r =>
      let g := if negb (py_in (PStr (key i)) (edges_py g))
               then add_edge epic_key (key i) [("color", "blue"); ("penwidth", "0.5")]
                      (add_node (key i) [("style", "filled"); ("penwidth", "2.0")] g)
               else g in
      add_epic_issues epic_key r g
  end.

(** [epic] is [None] (a non-200 answer) or the body's ["issues"]. *)
Definition add_issues_to_graph (g : graph) (epic : option (list issue)) (epic_key : string)
  : outcome * graph :=
  match epic with
  | None => (Raise ETypeError, g)
  | Some issues => (Done, add_epic_issues epic_key issues g)
  end.

(** ** [update_graph_with_issue_progress] (lines 113-129) *)

Definition color_attr (status : string) (a : attrs) : attrs :=
  if String.eqb status "To Do" then attr_set "fillcolor" "white" a
  else if String.eqb status "In Progress" then attr_set "fillcolor" "yellow" a
  else if String.eqb status "Done" then attr_set "fillcolor" "green" a
  else a.

Fixpoint color_nodes (ns : list (string * attrs)) : outcome * list (string * attrs) :=
  match ns with
  | [] => (Done, [])
  | (n, a) :: r =>
      match get_issue n with
      | Exc => (Raise ETypeError, ns)
      | Val None => (Raise ETypeError, ns)
      | Val (Some i) =>
          let a' := color_attr (status_name i) a in
          let '(o, r') := color_nodes r in (o, (n, a') :: r')
      end
  end.

Definition update_graph_with_issue_progress (g : graph) : outcome * graph :=
  let '(o, ns) := color_nodes (nodes g) in (o, mk_graph ns (edges g)).

(** ** The main program (lines 149-180) *)

(** Line 163: the start node is created with shape "folder". *)
Definition start_graph (start : string) : graph :=
  add_node start [("style", "filled"); ("shape", "folder"); ("penwidth", "2.0")] empty_graph.

(** The passes in the order of [__main__]; [expand] says whether the
    [options.verbose == True] branch is taken. *)
Definition run (fuel : nat) (expand : bool) (start : string) : outcome * graph :=
  let '(o1, s) := add_dependencies_to_graph fuel (start_graph start) in
  match o1 with
  | Done =>
      let '(o2, g2) := update_shape_on_epics (st_graph s) in
      match o2 with
      | Done =>
          let '(o3, g3) :=
            if expand
            then match get_issues_in_epic start with
                 | Exc => (Raise ERequest, g2)
                 | Val epic => add_issues_to_graph g2 epic start
                 end
            else (Done, g2) in
          match o3 with
          | Done => update_graph_with_issue_progress g3
          | o => (o, g3)
          end
      | o => (o, g2)
      end
  | o => (o, st_graph s)
  end.

End Tracker.

(** [options.verbose]: optparse's default [False], or the string given to
    [-v] (the option has no [store_true] action). *)
Inductive verbose_opt : Type :=
| VDefault
| VString (s : string).

(** [options.verbose == True]: neither [False] nor a string equals [True]. *)
Definition verbose_is_True (v : verbose_opt) : bool :=
  match v with
  | VDefault => false
  | VString _ => false
  end.

Definition main http_issue http_epic http_epic_issues fuel (v : verbose_opt) start :=
  run http_issue http_epic http_epic_issues fuel (verbose_is_True v) start.

(** ** Notions used to state and prove the claims about [walk] *)

(** The far ends of a link record, and the directed pairs it stands for when
    read on issue [A]. *)
Definition link_neighbors (l : link) : list string :=
  match outwardIssue l with Some o => [li_key o] | None => [] end ++
  match inwardIssue l with Some c => [li_key c] | None => [] end.

Definition link_pairs (A : string) (l : link) : list (string * string) :=
  match outwardIssue l with Some o => [(A, li_key o)] | None => [] end ++
  match inwardIssue l with Some c => [(li_key c, A)] | None => [] end.

Definition issue_neighbors (i : issue) : list string := flat_map link_neighbors (issuelinks i).

Definition issue_pairs (i : issue) : list (string * string) := flat_map (link_pairs (key i)) (issuelinks i).

(** Keys reachable from [start] along the link records the tracker serves. *)
Inductive reachable (http_issue : string -> exc response) (start : string) : string -> Prop :=
| reach_start : reachable http_issue start start
| reach_link (a n : string) (i : issue) :
    reachable http_issue start a -> get_issue http_issue a = Val (Some i) ->
    In n (issue_neighbors i) -> reachable http_issue start n.

(** How many of [keys] are not yet in [seen]. *)
Definition unseen_count (keys seen : list string) : nat :=
  length (filter (fun k => negb (existsb (String.eqb k) seen)) keys).

(** [s'] extends [s]: [seen], the fetch log and the edge list only grow at
    their ends. *)
Definition st_ext (s s' : st) : Prop :=
  exists ns nf ne, seen s' = seen s ++ ns /\ fetched s' = fetched s ++ nf /\
                   edges (st_graph s') = edges (st_graph s) ++ ne.

Definition fetch_ok (http_issue : string -> exc response) (k : string) : Prop :=
  exists i, get_issue http_issue k = Val (Some i).

(** The walk's bookkeeping: the fetch log equals [seen], which has no
    repetition and holds only keys fetched successfully. *)
Definition walk_inv (http_issue : string -> exc response) (s : st) : Prop :=
  fetched s = seen s /\ NoDup (seen s) /\ (forall k, In k (seen s) -> fetch_ok http_issue k).

(** After an aborted walk the log is [seen] plus the one key whose fetch
    failed, fetched last. *)
Definition walk_post (http_issue : string -> exc response) (o : outcome) (s : st) : Prop :=
  match o with
  | Raise e =>
      e = ETypeError /\
      exists k, fetched s = seen s ++ [k] /\ ~ In k (seen s) /\ NoDup (seen s) /\
                (forall j, In j (seen s) -> fetch_ok http_issue j) /\ ~ fetch_ok http_issue k
  | _ => walk_inv http_issue s
  end.

(** [s'] extends [s] with newly seen keys whose link pairs are all edges,
    and with edges whose two ends are seen. *)
Definition closed_ext (http_issue : string -> exc response) (s s' : st) : Prop :=
  exists ns ne,
    seen s' = seen s ++ ns /\ edges (st_graph s') = edges (st_graph s) ++ ne /\
    (forall e, In e ne -> In (e_src e) (seen s') /\ In (e_tgt e) (seen s')) /\
    (forall j, In j ns -> exists i, get_issue http_issue j = Val (Some i) /\
                                    forall p, In p (issue_pairs i) -> In p (edge_pairs (st_graph s'))).

(** [g'] keeps the shapes of [g]: no node is lost, every node of [g] keeps
    its shape, and every new node has none. *)
Definition shape_kept (g g' : graph) : Prop :=
  incl (node_keys g) (node_keys g') /\
  forall n a', In (n, a') (nodes g') ->
    (exists a, In (n, a) (nodes g) /\ attr_get "shape" a' = attr_get "shape" a) \/
    (~ In n (node_keys g) /\ attr_get "shape" a' = None).

(** [g'] is built from [g] by a sequence of [add_node] and [add_edge] calls. *)
Inductive adds : graph -> graph -> Prop :=
| adds_refl (g : graph) : adds g g
| adds_node (g : graph) (n : string) (kvs : attrs) (g' : graph) :
    adds (add_node n kvs g) g' -> adds g g'
| adds_edge (g : graph) (u v : string) (kvs : attrs) (g' : graph) :
    adds (add_edge u v kvs g) g' -> adds g g'.

(** No two nodes share a key, and both ends of every edge are nodes. *)
Definition graph_wf (g : graph) : Prop :=
  NoDup (node_keys g) /\
  forall e, In e (edges g) -> In (e_src e) (node_keys g) /\ In (e_tgt e) (node_keys g).

(** [s'] extends [s], every edge pair of [s'] not already in [s] is a link
    pair of a seen issue, and every issue seen since [s] has all its link
    pairs among the edges. *)
Definition sound_ext (http_issue : string -> exc response) (s s' : st) : Prop :=
  st_ext s s' /\
  (forall p, In p (edge_pairs (st_graph s')) ->
     In p (edge_pairs (st_graph s)) \/
     exists k i, In k (seen s') /\ get_issue http_issue k = Val (Some i) /\ In p (issue_pairs i)) /\
  (forall k, In k (seen s') -> ~ In k (seen s) ->
     exists i, get_issue http_issue k = Val (Some i) /\
               forall p, In p (issue_pairs i) -> In p (edge_pairs (st_graph s'))).

(** ** A small tracker used in the examples below *)

Definition demo_linked (k : string) : linked_issue := mk_linked k (String.append "Summary of " k).

(** DEMO-1 blocks DEMO-2, DEMO-2 "is blocked by" DEMO-1 (both sides of the
    links as the tracker reports them); DEMO-0 links outward to DEMO-1. *)
Definition demo_issue_record (k : string) : option issue :=
  if String.eqb k "DEMO-0" then
    Some (mk_issue "DEMO-0" "In Progress" [mk_link (Some (demo_linked "DEMO-1")) None "relates to"])
  else if String.eqb k "DEMO-1" then
    Some (mk_issue "DEMO-1" "To Do" [mk_link (Some (demo_linked "DEMO-2")) None "blocks";
                                     mk_link None (Some (demo_linked "DEMO-0")) "relates to"])
  else if String.eqb k "DEMO-2" then
    Some (mk_issue "DEMO-2" "Done" [mk_link (Some (demo_linked "DEMO-1")) None "is blocked by";
                                    mk_link None (Some (demo_linked "DEMO-1")) "blocks"])
  else None.

Definition demo_http_issue (k : string) : exc response :=
  match demo_issue_record k with
  | Some i => Val (mk_response 200 i)
  | None => Val (mk_response 404 (mk_issue k "" []))
  end.

(** Only DEMO-0 is an epic; its members are DEMO-1 and DEMO-2. *)
Definition demo_http_epic (k : string) : exc Z :=
  if String.eqb k "DEMO-0" then Val 200%Z else Val 404%Z.

Definition demo_http_epic_issues (k : string) : exc (Z * list issue) :=
  if String.eqb k "DEMO-0"
  then Val (200%Z, [mk_issue "DEMO-1" "To Do" []; mk_issue "DEMO-2" "Done" []])
  else Val (404%Z, []).

(** A lone issue DEMO-1 without links, which is not an epic. *)
Definition lone_http_issue (k : string) : exc response :=
  Val (mk_response (if String.eqb k "DEMO-1" then 200 else 404) (mk_issue k "To Do" [])).

Definition lone_http_epic (k : string) : exc Z := Val 404%Z.

Definition lone_http_epic_issues (k : string) : exc (Z * list issue) := Val (404%Z, []).

(** EPIC-1, without links, has one member EPIC-2; the epic probe answers 200
    for both. *)
Definition epic_http_issue (k : string) : exc response :=
  Val (mk_response (if String.eqb k "EPIC-1" || String.eqb k "EPIC-2" then 200 else 404)
                   (mk_issue k "To Do" [])).

Definition epic_http_epic (k : string) : exc Z :=
  if String.eqb k "EPIC-1" || String.eqb k "EPIC-2" then Val 200%Z else Val 404%Z.

Definition epic_http_epic_issues (k : string) : exc (Z * list issue) :=
  if String.eqb k "EPIC-1" then Val (200%Z, [mk_issue "EPIC-2" "To Do" []]) else Val (404%Z, []).

(** The graph a run with the Expander pass ends with on this tracker. *)
Definition epic_final_graph : graph :=
  mk_graph [("EPIC-1", [("style", "filled"); ("shape", "folder"); ("penwidth", "2.0"); ("fillcolor", "white")]);
            ("EPIC-2", [("style", "filled"); ("penwidth", "2.0"); ("fillcolor", "white")])]
           [mk_edge "EPIC-1" "EPIC-2" [("color", "blue"); ("penwidth", "0.5")]].

(** * Basic facts *)

Lemma attr_get_set (k k' v : string) (a : attrs) :
  attr_get k (attr_set k' v a) = if String.eqb k k' then Some v else attr_get k a.
Proof.
  induction a as [|[k0 v0] r IH]; simpl.
  - destruct (String.eqb k k'); reflexivity.
  - destruct (String.eqb k' k0) eqn:E1; simpl.
    + apply String.eqb_eq in E1; subst k0.
      destruct (String.eqb k k'); reflexivity.
    + rewrite IH. destruct (String.eqb k k') eqn:E2; [|reflexivity].
      apply String.eqb_eq in E2; subst k'.
      rewrite E1. reflexivity.
Qed.

Lemma attr_set_idem (k v : string) (a : attrs) :
  attr_set k v (attr_set k v a) = attr_set k v a.
Proof.
  induction a as [|[k0 v0] r IH]; simpl.
  - rewrite String.eqb_refl. reflexivity.
  - destruct (String.eqb k k0) eqn:E; simpl.
    + rewrite String.eqb_refl. reflexivity.
    + rewrite E, IH. reflexivity.
Qed.

Lemma color_attr_idem (s : string) (a : attrs) :
  color_attr s (color_attr s a) = color_attr s a.
Proof.
  unfold color_attr.
  destruct (String.eqb s "To Do"); [apply attr_set_idem|].
  destruct (String.eqb s "In Progress"); [apply attr_set_idem|].
  destruct (String.eqb s "Done"); [apply attr_set_idem|reflexivity].
Qed.

Lemma edges_add_node (n : string) (kvs : attrs) (g : graph) :
  edges (add_node n kvs g) = edges g.
Proof. unfold add_node. destruct (has_node n g); reflexivity. Qed.

Lemma edges_add_edge (u v : string) (kvs : attrs) (g : graph) :
  edges (add_edge u v kvs g) = edges g ++ [mk_edge u v kvs].
Proof.
  unfold add_edge. simpl.
  destruct (has_node u g); destruct (has_node v _); rewrite ?edges_add_node; reflexivity.
Qed.

Lemma py_in_pair (a b : string) (g : graph) :
  py_in (PTup (PStr a) (PStr b)) (edges_py g) = true <-> In (a, b) (edge_pairs g).
Proof.
  unfold py_in, edges_py, edge_pairs. rewrite existsb_exists. split.
  - intros [x [Hx Heq]]. apply in_map_iff in Hx as [e [<- He]].
    destruct (pyval_eq_dec _ _) as [E|]; [|discriminate].
    injection E as E1 E2. rewrite E1, E2. apply in_map_iff. exists e. auto.
  - intros Hin. apply in_map_iff in Hin as [e [E He]]. injection E as <- <-.
    exists (PTup (PStr (e_src e)) (PStr (e_tgt e))). split.
    + apply (in_map (fun e => PTup (PStr (e_src e)) (PStr (e_tgt e)))). exact He.
    + set (x := PTup (PStr (e_src e)) (PStr (e_tgt e))).
      destruct (pyval_eq_dec x x) as [|NE]; [reflexivity|now contradiction NE].
Qed.

(** A string is never equal to an edge tuple. *)
Lemma py_in_str_edges (k : string) (g : graph) :
  py_in (PStr k) (edges_py g) = false.
Proof.
  unfold py_in, edges_py. apply Bool.not_true_iff_false. rewrite existsb_exists.
  intros [x [Hx Heq]]. apply in_map_iff in Hx as [e [<- _]].
  destruct (pyval_eq_dec _ _) as [E|]; discriminate.
Qed.

Lemma edge_pairs_app (g : graph) (ne : list edge) g' :
  edges g' = edges g ++ ne -> edge_pairs g' = edge_pairs g ++ map (fun e => (e_src e, e_tgt e)) ne.
Proof. intros E. unfold edge_pairs. rewrite E, map_app. reflexivity. Qed.

Lemma shape_nodes_keys http_epic ns o ns' :
  shape_nodes http_epic ns = (o, ns') -> map fst ns' = map fst ns.
Proof.
  revert o ns'. induction ns as [|[n a] r IH]; simpl; intros o ns' H.
  - injection H as _ <-. reflexivity.
  - destruct (http_epic n) as [code|].
    + destruct (shape_nodes http_epic r) as [o1 r1] eqn:E.
      injection H as _ <-. simpl. f_equal. exact (IH _ _ eq_refl).
    + injection H as _ <-. reflexivity.
Qed.

Lemma color_nodes_keys http_issue ns o ns' :
  color_nodes http_issue ns = (o, ns') -> map fst ns' = map fst ns.
Proof.
  revert o ns'. induction ns as [|[n a] r IH]; simpl; intros o ns' H.
  - injection H as _ <-. reflexivity.
  - destruct (get_issue http_issue n) as [[i|]|].
    + destruct (color_nodes http_issue r) as [o1 r1] eqn:E.
      injection H as _ <-. simpl. f_equal. exact (IH _ _ eq_refl).
    + injection H as _ <-. reflexivity.
    + injection H as _ <-. reflexivity.
Qed.

Lemma color_nodes_done http_issue ns ns' :
  color_nodes http_issue ns = (Done, ns') ->
  (forall n a', In (n, a') ns' ->
     exists a i, In (n, a) ns /\ get_issue http_issue n = Val (Some i) /\
                 a' = color_attr (status_name i) a) /\
  color_nodes http_issue ns' = (Done, ns').
Proof.
  revert ns'. induction ns as [|[n a] r IH]; simpl; intros ns' H.
  - injection H as <-. split; [intros ? ? []|reflexivity].
  - destruct (get_issue http_issue n) as [[i|]|] eqn:Ei; try discriminate.
    destruct (color_nodes http_issue r) as [o1 r1] eqn:E.
    injection H as -> <-.
    destruct (IH r1 eq_refl) as [Hin Hid]. split.
    + intros n' a' [Heq|Hr].
      * injection Heq as <- <-. exists a, i. auto.
      * destruct (Hin n' a' Hr) as [a0 [i0 [H1 H2]]]. exists a0, i0. auto.
    + simpl. rewrite Ei, Hid, color_attr_idem. reflexivity.
Qed.

Lemma fill_of_color_attr (s : string) (a : attrs) :
  (s = "To Do" -> attr_get "fillcolor" (color_attr s a) = Some "white") /\
  (s = "In Progress" -> attr_get "fillcolor" (color_attr s a) = Some "yellow") /\
  (s = "Done" -> attr_get "fillcolor" (color_attr s a) = Some "green").
Proof.
  unfold color_attr. repeat split; intros ->; simpl; rewrite attr_get_set; reflexivity.
Qed.

Lemma edge_pairs_ext (g g' : graph) (ne : list edge) (p : string * string) :
  edges g' = edges g ++ ne -> In p (edge_pairs g) -> In p (edge_pairs g').
Proof.
  intros E Hp. unfold edge_pairs in *. rewrite E, map_app. apply in_or_app. left. exact Hp.
Qed.

(** One candidate edge: either nothing changes (the pair was there), or the
    edge (u -> v) is appended and the far end becomes a child; the pair is an
    edge afterwards. *)
Lemma add_far_end_spec (g : graph) (ch : list string) (far : linked_issue) (u v lbl : string) :
  exists ne nc,
    edges (fst (add_far_end (g, ch) far u v lbl)) = edges g ++ ne /\
    snd (add_far_end (g, ch) far u v lbl) = ch ++ nc /\
    ((ne = [] /\ nc = []) \/ (ne = [mk_edge u v [("label", lbl)]] /\ nc = [li_key far])) /\
    In (u, v) (edge_pairs (fst (add_far_end (g, ch) far u v lbl))).
Proof.
  unfold add_far_end.
  destruct (py_in (PTup (PStr u) (PStr v)) (edges_py g)) eqn:Ep; cbn [negb fst snd].
  - exists [], []. rewrite !app_nil_r. split; [reflexivity|]. split; [reflexivity|].
    split; [left; split; reflexivity|]. apply py_in_pair. exact Ep.
  - exists [mk_edge u v [("label", lbl)]], [li_key far].
    rewrite edges_add_edge, edges_add_node. split; [reflexivity|]. split; [reflexivity|].
    split; [right; split; reflexivity|].
    unfold edge_pairs. rewrite edges_add_edge, edges_add_node, map_app.
    apply in_or_app. right. left. reflexivity.
Qed.

(** * The walk *)

Lemma existsb_eqb_In (k : string) (l : list string) :
  existsb (String.eqb k) l = true <-> In k l.
Proof.
  rewrite existsb_exists. split.
  - intros [x [Hx E]]. apply String.eqb_eq in E. subst. exact Hx.
  - intros H. exists k. split; [exact H|apply String.eqb_refl].
Qed.

Lemma existsb_eqb_not_In (k : string) (l : list string) :
  existsb (String.eqb k) l = false <-> ~ In k l.
Proof.
  rewrite <- existsb_eqb_In. destruct (existsb (String.eqb k) l); split; congruence.
Qed.

Lemma add_link_spec (i : issue) (l : link) (g : graph) (ch : list string) :
  exists ne nc,
    edges (fst (add_link i l (g, ch))) = edges g ++ ne /\
    snd (add_link i l (g, ch)) = ch ++ nc /\
    (forall e, In e ne -> (e_src e = key i /\ In (e_tgt e) nc) \/ (e_tgt e = key i /\ In (e_src e) nc)) /\
    (forall c, In c nc -> In c (link_neighbors l)) /\
    (forall p, In p (link_pairs (key i) l) -> In p (edge_pairs (fst (add_link i l (g, ch))))).
Proof.
  unfold add_link, link_neighbors, link_pairs.
  assert (Hout : exists ne1 nc1,
    edges (fst (match outwardIssue l with
                | None => (g, ch)
                | Some o => add_far_end (g, ch) o (key i) (li_key o) (type_outward l) end)) = edges g ++ ne1 /\
    snd (match outwardIssue l with
         | None => (g, ch)
         | Some o => add_far_end (g, ch) o (key i) (li_key o) (type_outward l) end) = ch ++ nc1 /\
    (forall e, In e ne1 -> e_src e = key i /\ In (e_tgt e) nc1) /\
    (forall c, In c nc1 -> In c (match outwardIssue l with Some o => [li_key o] | None => [] end)) /\
    (forall p, In p (match outwardIssue l with Some o => [(key i, li_key o)] | None => [] end) ->
       In p (edge_pairs (fst (match outwardIssue l with
                              | None => (g, ch)
                              | Some o => add_far_end (g, ch) o (key i) (li_key o) (type_outward l) end))))).
  { destruct (outwardIssue l) as [o|].
    - destruct (add_far_end_spec g ch o (key i) (li_key o) (type_outward l)) as [ne [nc [Ee [Ec [Hc Hp]]]]].
      exists ne, nc. split; [exact Ee|]. split; [exact Ec|].
      destruct Hc as [[-> ->]|[-> ->]].
      + split; [intros _ []|]. split; [intros _ []|]. intros p [<-|[]]. exact Hp.
      + split; [intros e [<-|[]]; split; [reflexivity|left; reflexivity]|].
        split; [intros c [<-|[]]; left; reflexivity|]. intros p [<-|[]]. exact Hp.
    - exists [], []. rewrite !app_nil_r. split; [reflexivity|]. split; [reflexivity|].
      split; [intros ? []|]. split; intros ? []. }
  destruct Hout as [ne1 [nc1 [Ee1 [Ec1 [He1 [Hn1 Hp1]]]]]].
  destruct (match outwardIssue l with
            | None => (g, ch)
            | Some o => add_far_end (g, ch) o (key i) (li_key o) (type_outward l) end) as [g1 ch1].
  cbn [fst snd] in Ee1, Ec1, Hp1. subst ch1.
  destruct (inwardIssue l) as [c|].
  - destruct (add_far_end_spec g1 (ch ++ nc1) c (li_key c) (key i) (type_outward l))
      as [ne [nc [Ee [Ec [Hc Hp]]]]].
    exists (ne1 ++ ne), (nc1 ++ nc). rewrite Ee, Ee1, Ec, !app_assoc. split; [reflexivity|].
    split; [reflexivity|]. destruct Hc as [[-> ->]|[-> ->]].
    + rewrite !app_nil_r. split; [intros e He; left; exact (He1 e He)|].
      split; [intros x Hx; apply in_or_app; left; exact (Hn1 x Hx)|].
      intros p Hp'. apply in_app_or in Hp' as [Hp'|[<-|[]]].
      * exact (edge_pairs_ext _ _ _ _ Ee (Hp1 p Hp')).
      * exact Hp.
    + split.
      { intros e He. apply in_app_or in He as [He|[<-|[]]].
        - left. destruct (He1 e He) as [H1 H2]. split; [exact H1|apply in_or_app; left; exact H2].
        - right. split; [reflexivity|apply in_or_app; right; left; reflexivity]. }
      split.
      { intros x Hx. apply in_app_or in Hx as [Hx|[<-|[]]]; apply in_or_app; [left; exact (Hn1 x Hx)|right; left; reflexivity]. }
      intros p Hp'. apply in_app_or in Hp' as [Hp'|[<-|[]]].
      * exact (edge_pairs_ext _ _ _ _ Ee (Hp1 p Hp')).
      * exact Hp.
  - exists ne1, nc1. rewrite app_nil_r. split; [exact Ee1|]. split; [reflexivity|].
    split; [intros e He; left; exact (He1 e He)|]. rewrite !app_nil_r. split; [exact Hn1|exact Hp1].
Qed.

Lemma add_links_spec (i : issue) (ls : list link) (g : graph) (ch : list string) :
  exists ne nc,
    edges (fst (add_links i ls (g, ch))) = edges g ++ ne /\
    snd (add_links i ls (g, ch)) = ch ++ nc /\
    (forall e, In e ne -> (e_src e = key i /\ In (e_tgt e) nc) \/ (e_tgt e = key i /\ In (e_src e) nc)) /\
    (forall c, In c nc -> In c (flat_map link_neighbors ls)) /\
    (forall p, In p (flat_map (link_pairs (key i)) ls) -> In p (edge_pairs (fst (add_links i ls (g, ch))))).
Proof.
  revert g ch. induction ls as [|l r IH]; intros g ch; simpl.
  - exists [], []. rewrite !app_nil_r. split; [reflexivity|]. split; [reflexivity|].
    split; [intros ? []|]. split; intros ? [].
  - destruct (add_link_spec i l g ch) as [ne1 [nc1 [Ee1 [Ec1 [He1 [Hn1 Hp1]]]]]].
    destruct (add_link i l (g, ch)) as [g1 ch1]. cbn [fst snd] in *. subst ch1.
    destruct (IH g1 (ch ++ nc1)) as [ne2 [nc2 [Ee2 [Ec2 [He2 [Hn2 Hp2]]]]]].
    exists (ne1 ++ ne2), (nc1 ++ nc2). rewrite Ee2, Ee1, Ec2, !app_assoc.
    split; [reflexivity|]. split; [reflexivity|]. split; [|split].
    + intros e He. apply in_app_or in He as [He|He].
      * destruct (He1 e He) as [[A B]|[A B]]; [left|right]; split; auto; apply in_or_app; left; auto.
      * destruct (He2 e He) as [[A B]|[A B]]; [left|right]; split; auto; apply in_or_app; right; auto.
    + intros c Hc. apply in_app_or in Hc as [Hc|Hc]; apply in_or_app; [left|right]; auto.
    + intros p Hp. apply in_app_or in Hp as [Hp|Hp]; [|exact (Hp2 p Hp)].
      exact (edge_pairs_ext _ _ _ _ Ee2 (Hp1 p Hp)).
Qed.

Lemma st_ext_refl (s : st) : st_ext s s.
Proof. exists [], [], []. rewrite !app_nil_r. auto. Qed.

Lemma st_ext_trans (s1 s2 s3 : st) : st_ext s1 s2 -> st_ext s2 s3 -> st_ext s1 s3.
Proof.
  intros [ns1 [nf1 [ne1 [A1 [B1 C1]]]]] [ns2 [nf2 [ne2 [A2 [B2 C2]]]]].
  exists (ns1 ++ ns2), (nf1 ++ nf2), (ne1 ++ ne2).
  rewrite A2, B2, C2, A1, B1, C1, !app_assoc. auto.
Qed.

Lemma st_ext_seen (s s' : st) (k : string) : st_ext s s' -> In k (seen s) -> In k (seen s').
Proof. intros [ns [_ [_ [A _]]]] H. rewrite A. apply in_or_app. left. exact H. Qed.

Lemma st_ext_edge_pairs (s s' : st) (p : string * string) :
  st_ext s s' -> In p (edge_pairs (st_graph s)) -> In p (edge_pairs (st_graph s')).
Proof. intros [_ [_ [ne [_ [_ C]]]]] H. exact (edge_pairs_ext _ _ _ _ C H). Qed.

(** One generic induction over the children loop: a property of single
    calls that composes along [Done] carries over to the whole loop. *)
Lemma walk_children_ind (w : string -> st -> outcome * st)
  (Pc : string -> Prop) (P : st -> Prop) (Q : st -> outcome -> st -> Prop) :
  (forall s, P s -> Q s Done s) ->
  (forall s1 s2 o s3, Q s1 Done s2 -> Q s2 o s3 -> Q s1 o s3) ->
  (forall c s o s', Pc c -> P s -> ~ In c (seen s) -> w c s = (o, s') ->
     Q s o s' /\ (o = Done -> P s')) ->
  forall cs s o s', Forall Pc cs -> P s -> walk_children w cs s = (o, s') -> Q s o s'.
Proof.
  intros Hnil Htrans Hcall. induction cs as [|c cs IH]; intros s o s' Hcs Hs H; simpl in H.
  - injection H as <- <-. apply Hnil. exact Hs.
  - inversion Hcs as [|? ? Hc Hcs']; subst.
    destruct (existsb (String.eqb c) (seen s)) eqn:Ein.
    + exact (IH s o s' Hcs' Hs H).
    + apply existsb_eqb_not_In in Ein.
      destruct (w c s) as [o1 s1] eqn:Ew.
      destruct (Hcall c s o1 s1 Hc Hs Ein Ew) as [Q1 P1].
      destruct o1.
      * exact (Htrans _ _ _ _ Q1 (IH s1 o s' Hcs' (P1 eq_refl) H)).
      * injection H as <- <-. exact Q1.
      * injection H as <- <-. exact Q1.
Qed.

Section WalkFacts.

Variable http_issue : string -> exc response.

(** Unfolding one level of [walk] on a fetched issue. *)
Lemma walk_found (f : nat) (k : string) (s : st) (i : issue) :
  get_issue http_issue k = Val (Some i) ->
  walk http_issue (S f) k s =
  walk_children (walk http_issue f)
    (snd (add_links i (issuelinks i) (st_graph s, [])))
    (mk_st (fst (add_links i (issuelinks i) (st_graph s, []))) (seen s ++ [k]) (fetched s ++ [k])).
Proof.
  intros Hi. simpl. rewrite Hi. destruct (add_links i (issuelinks i) (st_graph s, [])). reflexivity.
Qed.

Lemma walk_failed (f : nat) (k : string) (s : st) :
  (forall i, get_issue http_issue k <> Val (Some i)) ->
  walk http_issue (S f) k s = (Raise ETypeError, log_fetch k s).
Proof.
  intros Hi. simpl. destruct (get_issue http_issue k) as [[i|]|]; [|reflexivity|reflexivity].
  exfalso. exact (Hi i eq_refl).
Qed.

Lemma get_issue_cases (k : string) :
  (exists i, get_issue http_issue k = Val (Some i)) \/ (forall i, get_issue http_issue k <> Val (Some i)).
Proof.
  destruct (get_issue http_issue k) as [[i|]|]; [left; exists i; reflexivity|right; discriminate..].
Qed.

Lemma walk_ext (f : nat) (k : string) (s s' : st) (o : outcome) :
  walk http_issue f k s = (o, s') -> st_ext s s'.
Proof.
  revert k s s' o. induction f as [|f IH]; intros k s s' o H.
  - simpl in H. injection H as _ <-. apply st_ext_refl.
  - destruct (get_issue_cases k) as [[i Hi]|Hi].
    + rewrite (walk_found f k s i Hi) in H.
      destruct (add_links_spec i (issuelinks i) (st_graph s) []) as [ne [_ [Ee _]]].
      eapply st_ext_trans; [|eapply (walk_children_ind _ (fun _ => True) (fun _ => True)
                                      (fun s1 _ s2 => st_ext s1 s2)); [| | | |exact I|exact H]].
      * exists [k], [k], ne. simpl. auto.
      * intros; apply st_ext_refl.
      * intros; eapply st_ext_trans; eassumption.
      * intros c s1 o1 s2 _ _ _ Hw. split; [exact (IH _ _ _ _ Hw)|intros; exact I].
      * apply Forall_forall. intros; exact I.
    + rewrite (walk_failed f k s Hi) in H. injection H as _ <-.
      exists [], [k], []. rewrite !app_nil_r. auto.
Qed.

Lemma NoDup_snoc (l : list string) (k : string) : NoDup l -> ~ In k l -> NoDup (l ++ [k]).
Proof.
  induction l as [|x l IH]; simpl; intros Hn Hk.
  - constructor; [intros []|constructor].
  - inversion Hn as [|? ? Hx Hl]; subst. constructor.
    + intros H. apply in_app_or in H as [H|[H|[]]]; [exact (Hx H)|apply Hk; left; symmetry; exact H].
    + apply IH; [exact Hl|intros H; apply Hk; right; exact H].
Qed.

Lemma Forall_true (l : list string) : Forall (fun _ => True) l.
Proof. apply Forall_forall. intros; exact I. Qed.

(** Every fetch is logged once: the log is [seen] after a completed walk,
    and [seen] plus the failing key after an aborted one. *)
Lemma walk_log (f : nat) (k : string) (s s' : st) (o : outcome) :
  walk_inv http_issue s -> ~ In k (seen s) -> walk http_issue f k s = (o, s') ->
  walk_post http_issue o s'.
Proof.
  revert k s s' o. induction f as [|f IH]; intros k s s' o Hinv Hk H.
  - simpl in H. injection H as <- <-. exact Hinv.
  - destruct Hinv as [Hfs [Hnd Hok]].
    destruct (get_issue_cases k) as [[i Hi]|Hi].
    + rewrite (walk_found f k s i Hi) in H.
      eapply (walk_children_ind _ (fun _ => True) (walk_inv http_issue)
                (fun _ o s2 => walk_post http_issue o s2)); [| | |apply Forall_true| |exact H].
      * intros s1 Hs1. exact Hs1.
      * intros s1 s2 o2 s3 _ Q. exact Q.
      * intros c s1 o1 s2 _ Hs1 Hc Hw. split; [exact (IH c s1 s2 o1 Hs1 Hc Hw)|].
        intros ->. exact (IH c s1 s2 Done Hs1 Hc Hw).
      * simpl. split; [rewrite Hfs; reflexivity|]. split; [exact (NoDup_snoc _ _ Hnd Hk)|].
        intros j Hj. apply in_app_or in Hj as [Hj|[<-|[]]]; [exact (Hok j Hj)|exists i; exact Hi].
    + rewrite (walk_failed f k s Hi) in H. injection H as <- <-. simpl.
      split; [reflexivity|]. exists k. rewrite Hfs.
      split; [reflexivity|]. split; [exact Hk|]. split; [exact Hnd|]. split; [exact Hok|].
      intros [i' Hi']. exact (Hi i' Hi').
Qed.

Lemma filter_length_mono (p q : string -> bool) (xs : list string) :
  (forall x, p x = true -> q x = true) -> length (filter p xs) <= length (filter q xs).
Proof.
  intros Hpq. induction xs as [|x xs IH]; simpl; [lia|].
  destruct (p x) eqn:Ep; [rewrite (Hpq x Ep); simpl; lia|].
  destruct (q x); simpl; lia.
Qed.

Lemma filter_length_strict (p q : string -> bool) (xs : list string) (k : string) :
  (forall x, p x = true -> q x = true) -> In k xs -> p k = false -> q k = true ->
  length (filter p xs) < length (filter q xs).
Proof.
  intros Hpq. induction xs as [|x xs IH]; simpl; [intros []|].
  intros [<-|Hk] Hp Hq.
  - rewrite Hp, Hq. simpl. pose proof (filter_length_mono p q xs Hpq). lia.
  - specialize (IH Hk Hp Hq).
    destruct (p x) eqn:Ep; [rewrite (Hpq x Ep); simpl; lia|].
    destruct (q x); simpl; lia.
Qed.

Lemma unseen_count_app (keys l m : list string) :
  unseen_count keys (l ++ m) <= unseen_count keys l.
Proof.
  apply filter_length_mono. intros x Hx.
  apply negb_true_iff, existsb_eqb_not_In in Hx. apply negb_true_iff, existsb_eqb_not_In.
  intros H. apply Hx, in_or_app. left. exact H.
Qed.

Lemma unseen_count_snoc (keys l : list string) (k : string) :
  In k keys -> ~ In k l -> unseen_count keys (l ++ [k]) < unseen_count keys l.
Proof.
  intros Hk Hl. apply (filter_length_strict _ _ _ k).
  - intros x Hx. apply negb_true_iff, existsb_eqb_not_In in Hx. apply negb_true_iff, existsb_eqb_not_In.
    intros H. apply Hx, in_or_app. left. exact H.
  - exact Hk.
  - apply negb_false_iff, existsb_eqb_In, in_or_app. right. left. reflexivity.
  - apply negb_true_iff, existsb_eqb_not_In. exact Hl.
Qed.

(** With more fuel than unseen keys of the tracker, the walk never runs out. *)
Lemma walk_fuel (keys : list string)
  (Hfin : forall k i, get_issue http_issue k = Val (Some i) -> In k keys)
  (f : nat) (k : string) (s s' : st) (o : outcome) :
  ~ In k (seen s) -> unseen_count keys (seen s) < f -> walk http_issue f k s = (o, s') -> o <> NoFuel.
Proof.
  revert k s s' o. induction f as [|f IH]; intros k s s' o Hk Hc H; [lia|].
  destruct (get_issue_cases k) as [[i Hi]|Hi].
  - rewrite (walk_found f k s i Hi) in H.
    pose proof (unseen_count_snoc keys (seen s) k (Hfin k i Hi) Hk) as Hlt.
    eapply (walk_children_ind _ (fun _ => True)
              (fun s1 => unseen_count keys (seen s1) < f)
              (fun _ o _ => o <> NoFuel)); [| | |apply Forall_true| |exact H].
    + intros _ _. discriminate.
    + intros s1 s2 o2 s3 _ Q. exact Q.
    + intros c s1 o1 s2 _ Hs1 Hc1 Hw. split; [exact (IH c s1 s2 o1 Hc1 Hs1 Hw)|].
      intros _. destruct (walk_ext f c s1 s2 o1 Hw) as [ns [_ [_ [Hs _]]]].
      rewrite Hs. pose proof (unseen_count_app keys (seen s1) ns). lia.
    + simpl. lia.
  - rewrite (walk_failed f k s Hi) in H. injection H as <- _. discriminate.
Qed.

(** Every fetched key is reachable from the start. *)
Lemma walk_reach (start : string) (f : nat) (k : string) (s s' : st) (o : outcome) :
  reachable http_issue start k -> walk http_issue f k s = (o, s') ->
  forall j, In j (fetched s') -> In j (fetched s) \/ reachable http_issue start j.
Proof.
  revert k s s' o. induction f as [|f IH]; intros k s s' o Hk H.
  - simpl in H. injection H as _ <-. left. exact H.
  - destruct (get_issue_cases k) as [[i Hi]|Hi].
    + rewrite (walk_found f k s i Hi) in H.
      destruct (add_links_spec i (issuelinks i) (st_graph s) []) as [ne [nc [_ [Ec [_ [Hn _]]]]]].
      rewrite Ec in H. simpl in H.
      set (s0 := mk_st (fst (add_links i (issuelinks i) (st_graph s, []))) (seen s ++ [k]) (fetched s ++ [k])) in H.
      intros j Hj.
      assert (Hall : forall j, In j (fetched s') ->
                In j (fetched s0) \/ reachable http_issue start j).
      { eapply (walk_children_ind _ (reachable http_issue start) (fun _ => True)
                  (fun s1 _ s2 => forall j, In j (fetched s2) -> In j (fetched s1) \/ reachable http_issue start j));
          [| | | |exact I|exact H].
        - intros s1 _ j' Hj'. left. exact Hj'.
        - intros s1 s2 o2 s3 Q1 Q2 j' Hj'. destruct (Q2 j' Hj') as [H2|H2]; [exact (Q1 j' H2)|right; exact H2].
        - intros c s1 o1 s2 Hc _ _ Hw. split; [exact (IH c s1 s2 o1 Hc Hw)|intros; exact I].
        - apply Forall_forall. intros c Hc. apply (reach_link _ _ k c i Hk Hi). exact (Hn c Hc). }
      destruct (Hall j Hj) as [Hj'|Hj']; [|right; exact Hj'].
      simpl in Hj'. apply in_app_or in Hj' as [Hj'|[<-|[]]]; [left; exact Hj'|right; exact Hk].
    + rewrite (walk_failed f k s Hi) in H. injection H as _ <-. simpl.
      intros j Hj. apply in_app_or in Hj as [Hj|[<-|[]]]; [left; exact Hj|right; exact Hk].
Qed.

Lemma walk_children_st_ext (w : string -> st -> outcome * st) :
  (forall c s o s', w c s = (o, s') -> st_ext s s') ->
  forall cs s o s', walk_children w cs s = (o, s') -> st_ext s s'.
Proof.
  intros Hw cs s o s' H.
  eapply (walk_children_ind w (fun _ => True) (fun _ => True) (fun s1 _ s2 => st_ext s1 s2));
    [| | |apply Forall_true|exact I|exact H].
  - intros; apply st_ext_refl.
  - intros; eapply st_ext_trans; eassumption.
  - intros c s1 o1 s2 _ _ _ E. split; [exact (Hw _ _ _ _ E)|intros; exact I].
Qed.

(** After a completed loop every child is seen. *)
Lemma walk_children_covers (w : string -> st -> outcome * st) :
  (forall c s o s', w c s = (o, s') -> st_ext s s') ->
  (forall c s s', w c s = (Done, s') -> In c (seen s')) ->
  forall cs s s', walk_children w cs s = (Done, s') -> forall c, In c cs -> In c (seen s').
Proof.
  intros Hext Hin. induction cs as [|c cs IH]; intros s s' H x Hx; [destruct Hx|].
  simpl in H. destruct (existsb (String.eqb c) (seen s)) eqn:Ein.
  - destruct Hx as [<-|Hx]; [|exact (IH s s' H x Hx)].
    apply existsb_eqb_In in Ein. exact (st_ext_seen _ _ _ (walk_children_st_ext w Hext cs s Done s' H) Ein).
  - destruct (w c s) as [o1 s1] eqn:Ew. destruct o1; try discriminate.
    destruct Hx as [<-|Hx]; [|exact (IH s1 s' H x Hx)].
    exact (st_ext_seen _ _ _ (walk_children_st_ext w Hext cs s1 Done s' H) (Hin _ _ _ Ew)).
Qed.

Lemma closed_ext_refl (s : st) : closed_ext http_issue s s.
Proof.
  exists [], []. rewrite !app_nil_r. split; [reflexivity|]. split; [reflexivity|].
  split; intros ? [].
Qed.

Lemma closed_ext_trans (s1 s2 s3 : st) :
  closed_ext http_issue s1 s2 -> closed_ext http_issue s2 s3 -> closed_ext http_issue s1 s3.
Proof.
  intros [ns1 [ne1 [A1 [B1 [C1 D1]]]]] [ns2 [ne2 [A2 [B2 [C2 D2]]]]].
  assert (Hs : forall x, In x (seen s2) -> In x (seen s3)).
  { intros x Hx. rewrite A2. apply in_or_app. left. exact Hx. }
  exists (ns1 ++ ns2), (ne1 ++ ne2).
  split; [rewrite A2, A1, app_assoc; reflexivity|].
  split; [rewrite B2, B1, app_assoc; reflexivity|]. split.
  - intros e He. apply in_app_or in He as [He|He]; [|exact (C2 e He)].
    destruct (C1 e He) as [X Y]. split; apply Hs; assumption.
  - intros j Hj. apply in_app_or in Hj as [Hj|Hj]; [|exact (D2 j Hj)].
    destruct (D1 j Hj) as [i [Hi Hp]]. exists i. split; [exact Hi|].
    intros p Hp'. exact (edge_pairs_ext _ _ _ _ B2 (Hp p Hp')).
Qed.

(** A completed walk from [k] sees [k]; the keys it newly sees have all their
    link pairs among the edges, and the edges it adds join seen keys. *)
Lemma walk_closed (Hwf : forall k i, get_issue http_issue k = Val (Some i) -> key i = k)
  (f : nat) (k : string) (s s' : st) :
  walk http_issue f k s = (Done, s') -> closed_ext http_issue s s' /\ In k (seen s').
Proof.
  revert k s s'. induction f as [|f IH]; intros k s s' H; [discriminate|].
  destruct (get_issue_cases k) as [[i Hi]|Hi];
    [|rewrite (walk_failed f k s Hi) in H; discriminate].
  rewrite (walk_found f k s i Hi) in H.
  destruct (add_links_spec i (issuelinks i) (st_graph s) []) as [ne1 [nc [Ee [Ec [He [_ Hp]]]]]].
  rewrite Ec in H. simpl in H.
  set (s0 := mk_st (fst (add_links i (issuelinks i) (st_graph s, []))) (seen s ++ [k]) (fetched s ++ [k])) in H.
  assert (H0 : closed_ext http_issue s0 s').
  { eapply (walk_children_ind _ (fun _ => True) (fun _ => True)
              (fun s1 o s2 => o = Done -> closed_ext http_issue s1 s2));
      [| | |apply Forall_true|exact I|exact H|reflexivity].
    - intros; apply closed_ext_refl.
    - intros s1 s2 o2 s3 Q1 Q2 E. exact (closed_ext_trans _ _ _ (Q1 eq_refl) (Q2 E)).
    - intros c s1 o1 s2 _ _ _ Hw. split; [|intros; exact I].
      intros ->. exact (proj1 (IH c s1 s2 Hw)). }
  assert (Hcov : forall c, In c nc -> In c (seen s')).
  { apply (walk_children_covers (walk http_issue f) (fun c s1 o1 s2 Hw => walk_ext f c s1 s2 o1 Hw) (fun c s1 s2 Hw => proj2 (IH c s1 s2 Hw)) nc s0 s' H). }
  destruct H0 as [ns [ne2 [Hs [He2 [Hen Hj]]]]].
  assert (Hk : In k (seen s')).
  { rewrite Hs. simpl. apply in_or_app. left. apply in_or_app. right. left. reflexivity. }
  split; [|exact Hk].
  exists ([k] ++ ns), (ne1 ++ ne2). simpl in Hs, He2.
  split; [rewrite Hs, app_assoc; reflexivity|].
  split; [rewrite He2, Ee, app_assoc; reflexivity|]. split.
  - intros e He'. apply in_app_or in He' as [He'|He']; [|exact (Hen e He')].
    rewrite (Hwf k i Hi) in He.
    destruct (He e He') as [[A B]|[A B]]; rewrite A; split; auto.
  - intros j [<-|Hj']; [|exact (Hj j Hj')].
    exists i. split; [exact Hi|]. intros p Hp'.
    exact (edge_pairs_ext _ _ _ _ He2 (Hp p Hp')).
Qed.

End WalkFacts.

Lemma add_dependencies_start (http_issue : string -> exc response) (fuel : nat) (start : string) :
  add_dependencies_to_graph http_issue fuel (start_graph start)
  = walk http_issue fuel start (mk_st (start_graph start) [] []).
Proof. reflexivity. Qed.

Lemma unseen_count_le (keys l : list string) : unseen_count keys l <= length keys.
Proof.
  unfold unseen_count. induction keys as [|x keys IH]; simpl; [lia|].
  destruct (negb _); simpl; lia.
Qed.

Lemma neighbor_pair (i : issue) (n : string) :
  In n (issue_neighbors i) -> exists p, In p (issue_pairs i) /\ (fst p = n \/ snd p = n).
Proof.
  unfold issue_neighbors, issue_pairs. rewrite in_flat_map. intros [l [Hl Hn]].
  unfold link_neighbors in Hn. apply in_app_or in Hn as [Hn|Hn].
  - destruct (outwardIssue l) as [o|] eqn:Eo; [|destruct Hn].
    destruct Hn as [<-|[]]. exists (key i, li_key o). split; [|right; reflexivity].
    apply in_flat_map. exists l. split; [exact Hl|]. unfold link_pairs. rewrite Eo.
    apply in_or_app. left. left. reflexivity.
  - destruct (inwardIssue l) as [c|] eqn:Ec; [|destruct Hn].
    destruct Hn as [<-|[]]. exists (li_key c, key i). split; [|left; reflexivity].
    apply in_flat_map. exists l. split; [exact Hl|]. unfold link_pairs. rewrite Ec.
    apply in_or_app. right. left. reflexivity.
Qed.

Lemma walk_inv_initial (http_issue : string -> exc response) (g : graph) :
  walk_inv http_issue (mk_st g [] []).
Proof. split; [reflexivity|]. split; [constructor|intros ? []]. Qed.

(** ** Shapes through the passes *)

Lemma attrs_update_shape (kvs a : attrs) :
  forallb (fun kv => negb (String.eqb (fst kv) "shape")) kvs = true ->
  attr_get "shape" (attrs_update kvs a) = attr_get "shape" a.
Proof.
  unfold attrs_update. revert a. induction kvs as [|[k v] r IH]; simpl; intros a H; [reflexivity|].
  apply andb_prop in H as [Hk Hr]. rewrite IH by exact Hr.
  rewrite attr_get_set, String.eqb_sym. apply negb_true_iff in Hk. rewrite Hk. reflexivity.
Qed.

Lemma shape_kept_refl (g : graph) : shape_kept g g.
Proof.
  split; [intros x Hx; exact Hx|]. intros n a' H. left. exists a'. auto.
Qed.

Lemma shape_kept_trans (g1 g2 g3 : graph) : shape_kept g1 g2 -> shape_kept g2 g3 -> shape_kept g1 g3.
Proof.
  intros [I12 H12] [I23 H23]. split; [intros x Hx; exact (I23 x (I12 x Hx))|].
  intros n a3 Ha3. destruct (H23 n a3 Ha3) as [[a2 [Ha2 E2]]|[Hn E3]].
  - destruct (H12 n a2 Ha2) as [[a1 [Ha1 E1]]|[Hn E1]].
    + left. exists a1. split; [exact Ha1|congruence].
    + right. split; [exact Hn|congruence].
  - right. split; [intros Hn1; exact (Hn (I12 n Hn1))|exact E3].
Qed.

Lemma shape_kept_add_node (n : string) (kvs : attrs) (g : graph) :
  forallb (fun kv => negb (String.eqb (fst kv) "shape")) kvs = true ->
  shape_kept g (add_node n kvs g).
Proof.
  intros Hkvs. unfold add_node. destruct (has_node n g) eqn:Hn.
  - split.
    + intros x Hx. unfold node_keys in *. simpl. rewrite map_map.
      erewrite map_ext; [exact Hx|]. intros [m b]. simpl. destruct (String.eqb m n); reflexivity.
    + intros n' a' H. simpl in H. apply in_map_iff in H as [[m b] [E Hm]]. left.
      simpl in E. destruct (String.eqb m n).
      * injection E as <- <-. exists b. split; [exact Hm|apply attrs_update_shape; exact Hkvs].
      * rewrite E in Hm. exists a'. auto.
  - split.
    + intros x Hx. unfold node_keys in *. simpl. rewrite map_app. apply in_or_app. left. exact Hx.
    + intros n' a' H. simpl in H. apply in_app_or in H as [H|[E|[]]].
      * left. exists a'. auto.
      * injection E as <- <-. right. split.
        -- apply existsb_eqb_not_In. exact Hn.
        -- rewrite attrs_update_shape by exact Hkvs. reflexivity.
Qed.

Lemma shape_kept_add_edge (u v : string) (kvs : attrs) (g : graph) :
  shape_kept g (add_edge u v kvs g).
Proof.
  unfold add_edge.
  assert (H1 : shape_kept g (if has_node u g then g else add_node u [] g)).
  { destruct (has_node u g); [apply shape_kept_refl|apply shape_kept_add_node; reflexivity]. }
  set (g1 := if has_node u g then g else add_node u [] g) in *.
  assert (H2 : shape_kept g (if has_node v g1 then g1 else add_node v [] g1)).
  { destruct (has_node v g1); [exact H1|].
    apply (shape_kept_trans _ _ _ H1). apply shape_kept_add_node. reflexivity. }
  exact H2.
Qed.

Lemma shape_kept_add_far_end (gc : graph * list string) (far : linked_issue) (u v lbl : string) :
  shape_kept (fst gc) (fst (add_far_end gc far u v lbl)).
Proof.
  destruct gc as [g ch]. unfold add_far_end. destruct (negb _); [|apply shape_kept_refl].
  eapply shape_kept_trans; [eapply shape_kept_add_node|apply shape_kept_add_edge]; reflexivity.
Qed.

Lemma shape_kept_add_links (i : issue) (ls : list link) (gc : graph * list string) :
  shape_kept (fst gc) (fst (add_links i ls gc)).
Proof.
  revert gc. induction ls as [|l r IH]; intros gc; simpl; [apply shape_kept_refl|].
  eapply shape_kept_trans; [|apply IH]. unfold add_link.
  destruct (outwardIssue l) as [o|]; destruct (inwardIssue l) as [c|];
    try apply shape_kept_add_far_end; try apply shape_kept_refl.
  eapply shape_kept_trans; [apply shape_kept_add_far_end|apply shape_kept_add_far_end].
Qed.

Lemma shape_kept_walk (http_issue : string -> exc response) (f : nat) (k : string) (s s' : st) (o : outcome) :
  walk http_issue f k s = (o, s') -> shape_kept (st_graph s) (st_graph s').
Proof.
  revert k s s' o. induction f as [|f IH]; intros k s s' o H.
  - simpl in H. injection H as _ <-. apply shape_kept_refl.
  - destruct (get_issue_cases http_issue k) as [[i Hi]|Hi].
    + rewrite (walk_found http_issue f k s i Hi) in H.
      eapply shape_kept_trans;
        [|eapply (walk_children_ind _ (fun _ => True) (fun _ => True)
                    (fun s1 _ s2 => shape_kept (st_graph s1) (st_graph s2))); [| | | |exact I|exact H]].
      * simpl. exact (shape_kept_add_links i (issuelinks i) (st_graph s, [])).
      * intros; apply shape_kept_refl.
      * intros; eapply shape_kept_trans; eassumption.
      * intros c s1 o1 s2 _ _ _ Hw. split; [exact (IH _ _ _ _ Hw)|intros; exact I].
      * apply Forall_true.
    + rewrite (walk_failed http_issue f k s Hi) in H. injection H as _ <-. apply shape_kept_refl.
Qed.

Lemma shape_kept_add_epic_issues (epic_key : string) (issues : list issue) (g : graph) :
  shape_kept g (add_epic_issues epic_key issues g).
Proof.
  revert g. induction issues as [|i r IH]; intros g; simpl; [apply shape_kept_refl|].
  eapply shape_kept_trans; [|apply IH]. destruct (negb _); [|apply shape_kept_refl].
  eapply shape_kept_trans; [eapply shape_kept_add_node|apply shape_kept_add_edge]; reflexivity.
Qed.

Lemma shape_nodes_done (http_epic : string -> exc Z) (ns ns' : list (string * attrs)) :
  shape_nodes http_epic ns = (Done, ns') ->
  forall n a', In (n, a') ns' ->
    exists a code, In (n, a) ns /\ http_epic n = Val code /\
                   a' = if Z.eqb code 200 then attr_set "shape" "folder" a else a.
Proof.
  revert ns'. induction ns as [|[n a] r IH]; simpl; intros ns' H.
  - injection H as <-. intros ? ? [].
  - destruct (http_epic n) as [code|] eqn:Ec; [|discriminate].
    destruct (shape_nodes http_epic r) as [o1 r1] eqn:E. injection H as -> <-.
    intros n' a' [Heq|Hr].
    + injection Heq as <- <-. exists a, code. auto.
    + destruct (IH r1 eq_refl n' a' Hr) as [a0 [c0 [H1 H2]]]. exists a0, c0. auto.
Qed.

(** * The claims *)

(** ** Link records (claim C3) *)

(** C3: processing one link record of issue A adds only the edge (A -> B) for
    an outward target B or (C -> A) for an inward target C, each labelled with
    the link type's outward phrase whatever the direction; afterwards the
    directed pair of each present target is an edge of the graph. *)
Theorem link_record_edge_direction_label (i : issue) (l : link) (g : graph) (ch : list string) :
  exists ne,
    edges (fst (add_link i l (g, ch))) = edges g ++ ne /\
    (forall e, In e ne ->
       (exists o, outwardIssue l = Some o /\ e = mk_edge (key i) (li_key o) [("label", type_outward l)]) \/
       (exists c, inwardIssue l = Some c /\ e = mk_edge (li_key c) (key i) [("label", type_outward l)])) /\
    (forall o, outwardIssue l = Some o -> In (key i, li_key o) (edge_pairs (fst (add_link i l (g, ch))))) /\
    (forall c, inwardIssue l = Some c -> In (li_key c, key i) (edge_pairs (fst (add_link i l (g, ch))))).
Proof.
  unfold add_link.
  set (lbl := type_outward l).
  set (E_out := fun e => exists o, outwardIssue l = Some o /\ e = mk_edge (key i) (li_key o) [("label", lbl)]).
  set (E_in := fun e => exists c, inwardIssue l = Some c /\ e = mk_edge (li_key c) (key i) [("label", lbl)]).
  assert (Hout : exists ne1,
    edges (fst (match outwardIssue l with
                | None => (g, ch)
                | Some o => add_far_end (g, ch) o (key i) (li_key o) lbl end)) = edges g ++ ne1 /\
    (forall e, In e ne1 -> E_out e) /\
    (forall o, outwardIssue l = Some o ->
       In (key i, li_key o) (edge_pairs (fst (match outwardIssue l with
                                             | None => (g, ch)
                                             | Some o => add_far_end (g, ch) o (key i) (li_key o) lbl end))))).
  { destruct (outwardIssue l) as [o|] eqn:Eo.
    - destruct (add_far_end_spec g ch o (key i) (li_key o) lbl) as [ne [nc [Ee [_ [Hc Hp]]]]].
      exists ne. split; [exact Ee|]. split.
      + intros e He. destruct Hc as [[-> _]|[-> _]]; [destruct He|].
        destruct He as [<-|[]]. exists o. auto.
      + intros o' Eo'. injection Eo' as <-. exact Hp.
    - exists []. rewrite app_nil_r. split; [reflexivity|]. split; [intros _ []|discriminate]. }
  destruct Hout as [ne1 [Ee1 [Ho1 Hp1]]].
  destruct (match outwardIssue l with
            | None => (g, ch)
            | Some o => add_far_end (g, ch) o (key i) (li_key o) lbl end) as [g1 ch1].
  cbn [fst] in Ee1, Hp1.
  destruct (inwardIssue l) as [c|] eqn:Ec.
  - destruct (add_far_end_spec g1 ch1 c (li_key c) (key i) lbl) as [ne [nc [Ee [_ [Hc Hp]]]]].
    exists (ne1 ++ ne). rewrite Ee, Ee1, app_assoc. split; [reflexivity|]. split.
    + intros e He. destruct (in_app_or _ _ _ He) as [He1|He1]; [left; exact (Ho1 e He1)|right].
      destruct Hc as [[-> _]|[-> _]]; [destruct He1|]. destruct He1 as [<-|[]]. exists c. auto.
    + split.
      * intros o Eo. exact (edge_pairs_ext _ _ _ _ Ee (Hp1 o Eo)).
      * intros c' Ec'. injection Ec' as <-. exact Hp.
  - exists ne1. split; [exact Ee1|]. split; [intros e He; left; exact (Ho1 e He)|].
    split; [exact Hp1|discriminate].
Qed.

(** ** The issue fetcher (claim C6) *)

(** C6 (as the code has it): [get_issue] returns the parsed body on status
    200 and [None] on every other status, 404 and 5xx alike; only an
    exception raised by the HTTP call itself propagates. *)
Theorem get_issue_result_kinds (http_issue : string -> exc response) (k : string) :
  (forall r, http_issue k = Val r -> status_code r = 200%Z ->
             get_issue http_issue k = Val (Some (body r))) /\
  (forall r, http_issue k = Val r -> status_code r <> 200%Z ->
             get_issue http_issue k = Val None) /\
  (http_issue k = Exc -> get_issue http_issue k = Exc).
Proof.
  unfold get_issue. repeat split.
  - intros r -> Hc. rewrite Hc. reflexivity.
  - intros r -> Hc. apply Z.eqb_neq in Hc. rewrite Hc. reflexivity.
  - intros ->. reflexivity.
Qed.

(** C6 fails as stated: a 500 answer is returned as the absent value [None],
    not signalled as a failure. *)
Lemma get_issue_500_returns_none :
  get_issue (fun _ => Val (mk_response 500 (mk_issue "DEMO-1" "To Do" []))) "DEMO-1" = Val None /\
  get_issue (fun _ => Val (mk_response 500 (mk_issue "DEMO-1" "To Do" []))) "DEMO-1" <> Exc.
Proof. split; [reflexivity|discriminate]. Qed.

(** ** Status colouring (claim C7) *)

(** C7: after a completed colouring pass every node's fill colour is white,
    yellow or green when its fetched status is "To Do", "In Progress" or
    "Done", and a second pass over the result changes nothing. *)
Theorem status_coloring_mapping_idempotent (http_issue : string -> exc response) (g g' : graph) :
  update_graph_with_issue_progress http_issue g = (Done, g') ->
  (forall n a', In (n, a') (nodes g') ->
     exists i, get_issue http_issue n = Val (Some i) /\
       (status_name i = "To Do" -> attr_get "fillcolor" a' = Some "white") /\
       (status_name i = "In Progress" -> attr_get "fillcolor" a' = Some "yellow") /\
       (status_name i = "Done" -> attr_get "fillcolor" a' = Some "green")) /\
  update_graph_with_issue_progress http_issue g' = (Done, g').
Proof.
  unfold update_graph_with_issue_progress.
  destruct (color_nodes http_issue (nodes g)) as [o ns] eqn:E. intros H.
  injection H as -> <-. destruct (color_nodes_done _ _ _ E) as [Hin Hid]. split.
  - intros n a' Ha. destruct (Hin n a' Ha) as [a [i [_ [Hi ->]]]].
    exists i. split; [exact Hi|]. apply fill_of_color_attr.
  - simpl. rewrite Hid. reflexivity.
Qed.

Lemma status_coloring_mapping_idempotent_witness :
  update_graph_with_issue_progress demo_http_issue
    (mk_graph [("DEMO-1", [("style", "filled")]); ("DEMO-2", [])] [])
  = (Done, mk_graph [("DEMO-1", [("style", "filled"); ("fillcolor", "white")]);
                     ("DEMO-2", [("fillcolor", "green")])] []) /\
  ((forall n a', In (n, a') (nodes (mk_graph [("DEMO-1", [("style", "filled"); ("fillcolor", "white")]);
                                              ("DEMO-2", [("fillcolor", "green")])] [])) ->
     exists i, get_issue demo_http_issue n = Val (Some i) /\
       (status_name i = "To Do" -> attr_get "fillcolor" a' = Some "white") /\
       (status_name i = "In Progress" -> attr_get "fillcolor" a' = Some "yellow") /\
       (status_name i = "Done" -> attr_get "fillcolor" a' = Some "green")) /\
   update_graph_with_issue_progress demo_http_issue
     (mk_graph [("DEMO-1", [("style", "filled"); ("fillcolor", "white")]);
                ("DEMO-2", [("fillcolor", "green")])] [])
   = (Done, mk_graph [("DEMO-1", [("style", "filled"); ("fillcolor", "white")]);
                      ("DEMO-2", [("fillcolor", "green")])] [])).
Proof.
  split.
  - vm_compute. reflexivity.
  - apply (status_coloring_mapping_idempotent demo_http_issue
             (mk_graph [("DEMO-1", [("style", "filled")]); ("DEMO-2", [])] [])).
    vm_compute. reflexivity.
Defined.

(** ** The annotation passes keep the structure (claim C10) *)

(** C10: the epic-shape pass and the colouring pass, completed or aborted,
    leave the node keys (in order) and the edge list exactly as they were. *)
Theorem annotation_passes_preserve_structure
  (http_issue : string -> exc response) (http_epic : string -> exc Z) (g g' : graph) (o : outcome) :
  (update_shape_on_epics http_epic g = (o, g') -> node_keys g' = node_keys g /\ edges g' = edges g) /\
  (update_graph_with_issue_progress http_issue g = (o, g') -> node_keys g' = node_keys g /\ edges g' = edges g).
Proof.
  unfold update_shape_on_epics, update_graph_with_issue_progress, node_keys. split.
  - destruct (shape_nodes http_epic (nodes g)) as [o1 ns] eqn:E. intros H.
    injection H as _ <-. simpl. split; [exact (shape_nodes_keys _ _ _ _ E)|reflexivity].
  - destruct (color_nodes http_issue (nodes g)) as [o1 ns] eqn:E. intros H.
    injection H as _ <-. simpl. split; [exact (color_nodes_keys _ _ _ _ E)|reflexivity].
Qed.

(** ** Duplicate edges from the Epic Expander (claims C1 and C4) *)

(** C1: with the Expander pass, the graph of the demo tracker ends with two
    edges DEMO-0 -> DEMO-1: the Walker's link edge and the Expander's
    membership edge, whose guard [issue["key"] not in graph.edges()] tests a
    string against edge tuples and so never holds back an edge. *)
Theorem expander_duplicates_walker_edge :
  fst (run demo_http_issue demo_http_epic demo_http_epic_issues 5 true "DEMO-0") = Done /\
  count_occ pair_eq_dec
    (edge_pairs (snd (run demo_http_issue demo_http_epic demo_http_epic_issues 5 true "DEMO-0")))
    ("DEMO-0", "DEMO-1") = 2.
Proof. vm_compute. split; reflexivity. Qed.

(** C4: running [add_issues_to_graph] twice with the same membership list
    doubles the membership edges that one run adds. *)
Theorem expander_twice_differs_from_once :
  let g1 := snd (add_issues_to_graph (start_graph "DEMO-0") (Some [mk_issue "DEMO-1" "To Do" []]) "DEMO-0") in
  let g2 := snd (add_issues_to_graph g1 (Some [mk_issue "DEMO-1" "To Do" []]) "DEMO-0") in
  edge_pairs g1 = [("DEMO-0", "DEMO-1")] /\
  edge_pairs g2 = [("DEMO-0", "DEMO-1"); ("DEMO-0", "DEMO-1")].
Proof. vm_compute. split; reflexivity. Qed.

(** ** A start issue without links (claim C9) *)

Lemma shape_of_color_attr (s : string) (a : attrs) :
  attr_get "shape" (color_attr s a) = attr_get "shape" a.
Proof.
  unfold color_attr.
  destruct (String.eqb s "To Do"); [rewrite attr_get_set; reflexivity|].
  destruct (String.eqb s "In Progress"); [rewrite attr_get_set; reflexivity|].
  destruct (String.eqb s "Done"); [rewrite attr_get_set; reflexivity|reflexivity].
Qed.

(** C9 fails as stated: the lone start issue DEMO-1, which is no epic (the
    probe answers 404), ends with shape "folder", not the default shape. *)
Lemma lone_start_node_has_folder_shape :
  lone_http_epic "DEMO-1" = Val 404%Z /\
  run lone_http_issue lone_http_epic lone_http_epic_issues 1 false "DEMO-1"
  = (Done, mk_graph [("DEMO-1", [("style", "filled"); ("shape", "folder"); ("penwidth", "2.0");
                                 ("fillcolor", "white")])] []) /\
  attr_get "shape" [("style", "filled"); ("shape", "folder"); ("penwidth", "2.0"); ("fillcolor", "white")]
  <> None.
Proof. split; [reflexivity|]. split; [vm_compute; reflexivity|discriminate]. Qed.

(** C9 (as the code has it): for a start issue with no links, a run without
    epic expansion ends with exactly the start node and no edge; the node has
    shape "folder" (given at creation, whatever the epic probe answers) and
    the fill colour of its status. *)
Theorem lone_start_issue_run (http_issue : string -> exc response) (http_epic : string -> exc Z)
  (http_epic_issues : string -> exc (Z * list issue)) (fuel : nat) (start : string)
  (r : response) (code : Z) :
  http_issue start = Val r -> status_code r = 200%Z -> issuelinks (body r) = [] ->
  http_epic start = Val code ->
  exists a,
    run http_issue http_epic http_epic_issues (S fuel) false start = (Done, mk_graph [(start, a)] []) /\
    attr_get "shape" a = Some "folder" /\
    (status_name (body r) = "To Do" -> attr_get "fillcolor" a = Some "white") /\
    (status_name (body r) = "In Progress" -> attr_get "fillcolor" a = Some "yellow") /\
    (status_name (body r) = "Done" -> attr_get "fillcolor" a = Some "green").
Proof.
  intros Hr Hc Hl He.
  assert (Hg : get_issue http_issue start = Val (Some (body r))).
  { unfold get_issue. rewrite Hr, Hc. reflexivity. }
  set (a0 := attrs_update [("style", "filled"); ("shape", "folder"); ("penwidth", "2.0")] []).
  set (a1 := if Z.eqb code 200 then attr_set "shape" "folder" a0 else a0).
  exists (color_attr (status_name (body r)) a1). split.
  - unfold run, add_dependencies_to_graph, start_graph, add_node. cbn -[get_issue attrs_update].
    rewrite Hg, Hl. cbn -[get_issue attrs_update].
    unfold update_shape_on_epics. cbn -[get_issue attrs_update]. rewrite He. fold a0 a1.
    unfold update_graph_with_issue_progress. cbn -[get_issue]. rewrite Hg. reflexivity.
  - split; [|apply fill_of_color_attr].
    rewrite shape_of_color_attr. unfold a1.
    destruct (Z.eqb code 200); [rewrite attr_get_set; reflexivity|reflexivity].
Qed.

Lemma lone_start_issue_run_witness :
  (lone_http_issue "DEMO-1" = Val (mk_response 200 (mk_issue "DEMO-1" "To Do" [])) /\
   status_code (mk_response 200 (mk_issue "DEMO-1" "To Do" [])) = 200%Z /\
   issuelinks (body (mk_response 200 (mk_issue "DEMO-1" "To Do" []))) = [] /\
   lone_http_epic "DEMO-1" = Val 404%Z) /\
  exists a,
    run lone_http_issue lone_http_epic lone_http_epic_issues 1 false "DEMO-1"
      = (Done, mk_graph [("DEMO-1", a)] []) /\
    attr_get "shape" a = Some "folder" /\
    ("To Do" = "To Do" -> attr_get "fillcolor" a = Some "white") /\
    ("To Do" = "In Progress" -> attr_get "fillcolor" a = Some "yellow") /\
    ("To Do" = "Done" -> attr_get "fillcolor" a = Some "green").
Proof.
  split; [repeat split; reflexivity|].
  apply (lone_start_issue_run lone_http_issue lone_http_epic lone_http_epic_issues 0 "DEMO-1"
           (mk_response 200 (mk_issue "DEMO-1" "To Do" [])) 404%Z); reflexivity.
Defined.

(** ** Termination and single fetches of the walk (claim C2) *)

(** C2: let the tracker serve records for finitely many keys [keys].  With
    more fuel than keys, the walk from a start node never runs out of fuel,
    cyclic links or not, and no key is fetched twice.  When every record
    carries its own key and every reachable key is served, the walk completes
    and fetches exactly the keys reachable from the start, each once. *)
Theorem walk_terminates_fetches_reachable_once (http_issue : string -> exc response)
  (keys : list string) (start : string) (fuel : nat) :
  (forall k i, get_issue http_issue k = Val (Some i) -> In k keys) ->
  length keys < fuel ->
  fst (add_dependencies_to_graph http_issue fuel (start_graph start)) <> NoFuel /\
  NoDup (fetched (snd (add_dependencies_to_graph http_issue fuel (start_graph start)))) /\
  ((forall k i, get_issue http_issue k = Val (Some i) -> key i = k) ->
   (forall k, reachable http_issue start k -> fetch_ok http_issue k) ->
   fst (add_dependencies_to_graph http_issue fuel (start_graph start)) = Done /\
   (forall k, In k (fetched (snd (add_dependencies_to_graph http_issue fuel (start_graph start)))) <->
              reachable http_issue start k)).
Proof.
  intros Hfin Hlen. rewrite add_dependencies_start.
  set (s0 := mk_st (start_graph start) [] []).
  destruct (walk http_issue fuel start s0) as [o s'] eqn:E. cbn [fst snd].
  pose proof (walk_log http_issue fuel start s0 s' o (walk_inv_initial _ _) (fun H => H) E) as Hpost.
  assert (Hfuel : o <> NoFuel).
  { apply (walk_fuel http_issue keys Hfin fuel start s0 s' o (fun H => H)); [|exact E].
    pose proof (unseen_count_le keys []). simpl. lia. }
  assert (Hreach := walk_reach http_issue start fuel start s0 s' o (reach_start _ _) E).
  simpl in Hreach.
  split; [exact Hfuel|]. split.
  { destruct o as [|e|]; simpl in Hpost.
    - destruct Hpost as [-> [Hnd _]]. exact Hnd.
    - destruct Hpost as [_ [k [-> [Hk [Hnd _]]]]]. exact (NoDup_snoc _ _ Hnd Hk).
    - destruct Hpost as [-> [Hnd _]]. exact Hnd. }
  intros Hwf Hall.
  assert (Ho : o = Done).
  { destruct o as [|e|]; [reflexivity| |contradiction].
    simpl in Hpost. destruct Hpost as [_ [k [Hf [_ [_ [_ Hbad]]]]]].
    exfalso. apply Hbad. apply Hall.
    destruct (Hreach k) as [[]|Hk]; [|exact Hk].
    rewrite Hf. apply in_or_app. right. left. reflexivity. }
  subst o. split; [reflexivity|].
  destruct Hpost as [Hfs [_ _]]. rewrite Hfs.
  destruct (walk_closed http_issue Hwf fuel start s0 s' E) as [[ns [ne [Hs [He [Hen Hj]]]]] Hstart].
  simpl in Hs, He.
  intros k. split.
  - intros Hk. rewrite <- Hfs in Hk. destruct (Hreach k Hk) as [[]|H]. exact H.
  - intros Hk. induction Hk as [|a n i Ha IHa Hi Hn].
    + exact Hstart.
    + rewrite Hs in IHa. simpl in IHa.
      destruct (Hj a IHa) as [i' [Hi' Hpairs]]. rewrite Hi in Hi'. injection Hi' as <-.
      destruct (neighbor_pair i n Hn) as [p [Hp Hpn]].
      specialize (Hpairs p Hp). unfold edge_pairs in Hpairs. rewrite He in Hpairs.
      apply in_map_iff in Hpairs as [e [<- He']].
      destruct (Hen e He') as [X Y]. destruct Hpn as [<-|<-]; assumption.
Qed.

Lemma walk_terminates_fetches_reachable_once_witness :
  (forall k i, get_issue demo_http_issue k = Val (Some i) -> In k ["DEMO-0"; "DEMO-1"; "DEMO-2"]) /\
  length ["DEMO-0"; "DEMO-1"; "DEMO-2"] < 4 /\
  (fst (add_dependencies_to_graph demo_http_issue 4 (start_graph "DEMO-1")) <> NoFuel /\
   NoDup (fetched (snd (add_dependencies_to_graph demo_http_issue 4 (start_graph "DEMO-1")))) /\
   ((forall k i, get_issue demo_http_issue k = Val (Some i) -> key i = k) ->
    (forall k, reachable demo_http_issue "DEMO-1" k -> fetch_ok demo_http_issue k) ->
    fst (add_dependencies_to_graph demo_http_issue 4 (start_graph "DEMO-1")) = Done /\
    (forall k, In k (fetched (snd (add_dependencies_to_graph demo_http_issue 4 (start_graph "DEMO-1")))) <->
               reachable demo_http_issue "DEMO-1" k))).
Proof.
  assert (Hfin : forall k i, get_issue demo_http_issue k = Val (Some i) -> In k ["DEMO-0"; "DEMO-1"; "DEMO-2"]).
  { intros k i. unfold get_issue, demo_http_issue, demo_issue_record.
    destruct (String.eqb k "DEMO-0") eqn:E0; [apply String.eqb_eq in E0; subst; simpl; auto|].
    destruct (String.eqb k "DEMO-1") eqn:E1; [apply String.eqb_eq in E1; subst; simpl; auto|].
    destruct (String.eqb k "DEMO-2") eqn:E2; [apply String.eqb_eq in E2; subst; simpl; auto|].
    simpl. discriminate. }
  assert (Hlen : length ["DEMO-0"; "DEMO-1"; "DEMO-2"] < 4) by (simpl; lia).
  exact (conj Hfin (conj Hlen
    (walk_terminates_fetches_reachable_once demo_http_issue ["DEMO-0"; "DEMO-1"; "DEMO-2"] "DEMO-1" 4 Hfin Hlen))).
Defined.

(** ** A failed fetch aborts the walk (claim C5) *)

(** C5: whatever the tracker answers, no key is fetched twice; and if a
    fetch raised, the whole walk ends with the propagated error, that fetch
    being the last one made. *)
Theorem walk_fetch_failure_aborts (http_issue : string -> exc response) (fuel : nat) (g : graph) :
  NoDup (fetched (snd (add_dependencies_to_graph http_issue fuel g))) /\
  (forall k, In k (fetched (snd (add_dependencies_to_graph http_issue fuel g))) ->
     get_issue http_issue k = Exc ->
     fst (add_dependencies_to_graph http_issue fuel g) = Raise ETypeError /\
     last (fetched (snd (add_dependencies_to_graph http_issue fuel g))) "" = k).
Proof.
  unfold add_dependencies_to_graph. destruct (nodes g) as [|[n a] r].
  - cbn [fst snd fetched]. split; [constructor|intros _ []].
  - destruct (walk http_issue fuel n (mk_st g [] [])) as [o s'] eqn:E. cbn [fst snd].
    pose proof (walk_log http_issue fuel n (mk_st g [] []) s' o (walk_inv_initial _ _) (fun H => H) E) as Hpost.
    assert (Hok : forall k, fetch_ok http_issue k -> get_issue http_issue k = Exc -> False).
    { intros k [i Hi] Hx. rewrite Hi in Hx. discriminate. }
    destruct o as [|e|]; simpl in Hpost.
    + destruct Hpost as [-> [Hnd Hall]]. split; [exact Hnd|].
      intros k Hk Hx. exfalso. exact (Hok k (Hall k Hk) Hx).
    + destruct Hpost as [-> [k' [-> [Hk' [Hnd [Hall _]]]]]].
      split; [exact (NoDup_snoc _ _ Hnd Hk')|].
      intros k Hk Hx. apply in_app_or in Hk as [Hk|[<-|[]]].
      * exfalso. exact (Hok k (Hall k Hk) Hx).
      * split; [reflexivity|apply last_last].
    + destruct Hpost as [-> [Hnd Hall]]. split; [exact Hnd|].
      intros k Hk Hx. exfalso. exact (Hok k (Hall k Hk) Hx).
Qed.

(** ** Epic shapes in the final graph (claim C8) *)

(** C8 fails as stated, twice.  Through [main] with the default options, the
    lone start issue DEMO-1, whose epic probe answers 404, ends with shape
    "folder".  And with the Expander pass, EPIC-2, added by the Expander and
    answering 200 to the probe, ends without a shape: the shape pass ran
    before it was added. *)
Lemma epic_probe_does_not_decide_final_shape :
  (lone_http_epic "DEMO-1" = Val 404%Z /\
   main lone_http_issue lone_http_epic lone_http_epic_issues 1 VDefault "DEMO-1"
   = (Done, mk_graph [("DEMO-1", [("style", "filled"); ("shape", "folder"); ("penwidth", "2.0");
                                  ("fillcolor", "white")])] []) /\
   attr_get "shape" [("style", "filled"); ("shape", "folder"); ("penwidth", "2.0"); ("fillcolor", "white")]
   = Some "folder") /\
  (epic_http_epic "EPIC-2" = Val 200%Z /\
   run epic_http_issue epic_http_epic epic_http_epic_issues 1 true "EPIC-1" = (Done, epic_final_graph) /\
   In ("EPIC-2", [("style", "filled"); ("penwidth", "2.0"); ("fillcolor", "white")]) (nodes epic_final_graph) /\
   attr_get "shape" [("style", "filled"); ("penwidth", "2.0"); ("fillcolor", "white")] = None).
Proof.
  split; (split; [reflexivity|]).
  - split; [vm_compute; reflexivity|reflexivity].
  - split; [vm_compute; reflexivity|]. split; [right; left; reflexivity|reflexivity].
Qed.

(** C8 (as the code has it): in the graph of a completed run, a node that was
    in the graph after the Walker has been probed, and has shape "folder" if
    the probe answered 200; otherwise it keeps its shape from before the
    pass, "folder" for the start node (given at its creation) and none for
    the others.  A node that was not there after the Walker, i.e. one added
    by the Epic Expander, has no shape, whatever the probe would answer. *)
Theorem epic_shapes_after_run (http_issue : string -> exc response) (http_epic : string -> exc Z)
  (http_epic_issues : string -> exc (Z * list issue)) (fuel : nat) (expand : bool)
  (start : string) (g : graph) :
  run http_issue http_epic http_epic_issues fuel expand start = (Done, g) ->
  forall n a, In (n, a) (nodes g) ->
    (In n (node_keys (st_graph (snd (add_dependencies_to_graph http_issue fuel (start_graph start))))) ->
     exists code, http_epic n = Val code /\
       attr_get "shape" a = if Z.eqb code 200 then Some "folder"
                            else if String.eqb n start then Some "folder" else None) /\
    (~ In n (node_keys (st_graph (snd (add_dependencies_to_graph http_issue fuel (start_graph start))))) ->
     attr_get "shape" a = None).
Proof.
  unfold run. destruct (add_dependencies_to_graph http_issue fuel (start_graph start)) as [o1 s] eqn:E1.
  cbn [snd]. intros H.
  destruct o1; try discriminate.
  assert (Hw : shape_kept (start_graph start) (st_graph s)).
  { rewrite add_dependencies_start in E1. exact (shape_kept_walk _ _ _ _ _ _ E1). }
  unfold update_shape_on_epics in H.
  destruct (shape_nodes http_epic (nodes (st_graph s))) as [o2 ns2] eqn:E2.
  destruct o2; try discriminate.
  set (g2 := mk_graph ns2 (edges (st_graph s))) in H.
  assert (Hg3 : exists g3, shape_kept g2 g3 /\ update_graph_with_issue_progress http_issue g3 = (Done, g)).
  { destruct expand.
    - destruct (get_issues_in_epic http_epic_issues start) as [[issues|]|]; try discriminate.
      exists (add_epic_issues start issues g2). split; [apply shape_kept_add_epic_issues|exact H].
    - exists g2. split; [apply shape_kept_refl|exact H]. }
  destruct Hg3 as [g3 [[_ H3] Hc]].
  unfold update_graph_with_issue_progress in Hc.
  destruct (color_nodes http_issue (nodes g3)) as [o4 ns4] eqn:E4.
  injection Hc as -> <-. destruct (color_nodes_done _ _ _ E4) as [Hcol _].
  intros n a Ha. simpl in Ha.
  destruct (Hcol n a Ha) as [a3 [i [Ha3 [_ ->]]]]. rewrite shape_of_color_attr.
  destruct (H3 n a3 Ha3) as [[a2 [Ha2 Es2]]|[Hn Es2]].
  - destruct (shape_nodes_done _ _ _ E2 n a2 Ha2) as [a1 [code [Ha1 [Hcode ->]]]].
    assert (Hin : In n (node_keys (st_graph s))).
    { unfold node_keys. apply in_map_iff. exists (n, a1). auto. }
    split; [|intros Hn; contradiction].
    intros _. exists code. split; [exact Hcode|]. rewrite Es2.
    destruct (Z.eqb code 200); [rewrite attr_get_set; reflexivity|].
    destruct Hw as [_ Hw]. destruct (Hw n a1 Ha1) as [[a0 [Ha0 E0]]|[Hn0 E0]].
    + simpl in Ha0. destruct Ha0 as [Ha0|[]]. injection Ha0 as <- <-.
      rewrite String.eqb_refl, E0. reflexivity.
    + rewrite E0. destruct (String.eqb n start) eqn:Es; [|reflexivity].
      apply String.eqb_eq in Es. subst. exfalso. apply Hn0. left. reflexivity.
  - assert (Hk : node_keys g2 = node_keys (st_graph s)) by exact (shape_nodes_keys _ _ _ _ E2).
    rewrite Hk in Hn. split; [intros Hin; contradiction|intros _; exact Es2].
Qed.

Lemma epic_shapes_after_run_witness :
  run epic_http_issue epic_http_epic epic_http_epic_issues 1 true "EPIC-1" = (Done, epic_final_graph) /\
  forall n a, In (n, a) (nodes epic_final_graph) ->
    (In n (node_keys (st_graph (snd (add_dependencies_to_graph epic_http_issue 1 (start_graph "EPIC-1"))))) ->
     exists code, epic_http_epic n = Val code /\
       attr_get "shape" a = if Z.eqb code 200 then Some "folder"
                            else if String.eqb n "EPIC-1" then Some "folder" else None) /\
    (~ In n (node_keys (st_graph (snd (add_dependencies_to_graph epic_http_issue 1 (start_graph "EPIC-1"))))) ->
     attr_get "shape" a = None).
Proof.
  assert (H : run epic_http_issue epic_http_epic epic_http_epic_issues 1 true "EPIC-1" = (Done, epic_final_graph))
    by (vm_compute; reflexivity).
  exact (conj H (epic_shapes_after_run epic_http_issue epic_http_epic epic_http_epic_issues 1 true "EPIC-1"
                   epic_final_graph H)).
Defined.

(** * Further properties of the program *)

(** ** How graphs are built *)

Lemma node_keys_add_node (n : string) (kvs : attrs) (g : graph) :
  node_keys (add_node n kvs g) = if has_node n g then node_keys g else node_keys g ++ [n].
Proof.
  unfold add_node, node_keys. destruct (has_node n g); simpl.
  - rewrite map_map. apply map_ext. intros [m b]. simpl. destruct (String.eqb m n); reflexivity.
  - rewrite map_app. reflexivity.
Qed.

Lemma node_keys_add_edge (u v : string) (kvs : attrs) (g : graph) :
  exists r, node_keys (add_edge u v kvs g) = node_keys g ++ r /\
            In u (node_keys (add_edge u v kvs g)) /\ In v (node_keys (add_edge u v kvs g)).
Proof.
  unfold add_edge.
  set (g1 := if has_node u g then g else add_node u [] g).
  assert (H1 : exists r, node_keys g1 = node_keys g ++ r /\ In u (node_keys g1)).
  { unfold g1. destruct (has_node u g) eqn:Hu.
    - exists []. rewrite app_nil_r. split; [reflexivity|]. apply existsb_eqb_In. exact Hu.
    - rewrite node_keys_add_node, Hu. exists [u]. split; [reflexivity|].
      apply in_or_app. right. left. reflexivity. }
  destruct H1 as [r1 [E1 Hu1]].
  set (g2 := if has_node v g1 then g1 else add_node v [] g1).
  assert (H2 : exists r, node_keys g2 = node_keys g1 ++ r /\ In v (node_keys g2)).
  { unfold g2. destruct (has_node v g1) eqn:Hv.
    - exists []. rewrite app_nil_r. split; [reflexivity|]. apply existsb_eqb_In. exact Hv.
    - rewrite node_keys_add_node, Hv. exists [v]. split; [reflexivity|].
      apply in_or_app. right. left. reflexivity. }
  destruct H2 as [r2 [E2 Hv2]].
  change (node_keys (mk_graph (nodes g2) (edges g2 ++ [mk_edge u v kvs]))) with (node_keys g2).
  exists (r1 ++ r2). split; [rewrite E2, E1, app_assoc; reflexivity|]. split; [|exact Hv2].
  rewrite E2. apply in_or_app. left. exact Hu1.
Qed.

Lemma adds_trans (g1 g2 g3 : graph) : adds g1 g2 -> adds g2 g3 -> adds g1 g3.
Proof.
  intros H12 H23. induction H12.
  - exact H23.
  - eapply adds_node. apply IHadds. exact H23.
  - eapply adds_edge. apply IHadds. exact H23.
Qed.

Lemma adds_one_node (n : string) (kvs : attrs) (g : graph) : adds g (add_node n kvs g).
Proof. eapply adds_node. apply adds_refl. Qed.

Lemma adds_one_edge (u v : string) (kvs : attrs) (g : graph) : adds g (add_edge u v kvs g).
Proof. eapply adds_edge. apply adds_refl. Qed.

(** Building only appends node keys and edges. *)
Lemma adds_prefix (g g' : graph) :
  adds g g' -> (exists r, node_keys g' = node_keys g ++ r) /\ (exists ne, edges g' = edges g ++ ne).
Proof.
  induction 1 as [g|g n kvs g' _ [[r Er] [ne Ee]]|g u v kvs g' _ [[r Er] [ne Ee]]].
  - split; exists []; rewrite app_nil_r; reflexivity.
  - rewrite node_keys_add_node in Er. rewrite edges_add_node in Ee. split; [|exists ne; exact Ee].
    destruct (has_node n g); [exists r; exact Er|exists ([n] ++ r); rewrite Er, app_assoc; reflexivity].
  - destruct (node_keys_add_edge u v kvs g) as [r0 [E0 _]]. rewrite edges_add_edge in Ee.
    split; [exists (r0 ++ r)|exists ([mk_edge u v kvs] ++ ne)];
      [rewrite Er, E0, app_assoc|rewrite Ee, app_assoc]; reflexivity.
Qed.

Lemma wf_add_node (n : string) (kvs : attrs) (g : graph) : graph_wf g -> graph_wf (add_node n kvs g).
Proof.
  intros [Hnd He]. split.
  - rewrite node_keys_add_node. destruct (has_node n g) eqn:Hn; [exact Hnd|].
    apply NoDup_snoc; [exact Hnd|]. apply existsb_eqb_not_In. exact Hn.
  - rewrite edges_add_node. intros e Hin. destruct (He e Hin) as [A B].
    rewrite node_keys_add_node. destruct (has_node n g); [auto|split; apply in_or_app; left; assumption].
Qed.

Lemma wf_add_edge (u v : string) (kvs : attrs) (g : graph) : graph_wf g -> graph_wf (add_edge u v kvs g).
Proof.
  intros Hwf. unfold add_edge.
  assert (H1 : graph_wf (if has_node u g then g else add_node u [] g))
    by (destruct (has_node u g); [exact Hwf|apply wf_add_node; exact Hwf]).
  set (g1 := if has_node u g then g else add_node u [] g) in *.
  assert (H2 : graph_wf (if has_node v g1 then g1 else add_node v [] g1))
    by (destruct (has_node v g1); [exact H1|apply wf_add_node; exact H1]).
  destruct (node_keys_add_edge u v kvs g) as [r [_ [Hu Hv]]]. unfold add_edge in Hu, Hv. fold g1 in Hu, Hv.
  set (g2 := if has_node v g1 then g1 else add_node v [] g1) in *.
  destruct H2 as [Hnd He]. split; [exact Hnd|].
  intros e Hin. simpl in Hin. apply in_app_or in Hin as [Hin|[<-|[]]]; [exact (He e Hin)|].
  split; assumption.
Qed.

Lemma adds_wf (g g' : graph) : adds g g' -> graph_wf g -> graph_wf g'.
Proof.
  induction 1; intros Hwf; auto using wf_add_node, wf_add_edge.
Qed.

Lemma wf_same_structure (g g' : graph) :
  node_keys g' = node_keys g -> edges g' = edges g -> graph_wf g -> graph_wf g'.
Proof. intros Ek Ee [Hnd He]. split; rewrite Ek; [exact Hnd|rewrite Ee; exact He]. Qed.

Lemma adds_add_far_end (gc : graph * list string) (far : linked_issue) (u v lbl : string) :
  adds (fst gc) (fst (add_far_end gc far u v lbl)).
Proof.
  destruct gc as [g ch]. unfold add_far_end. destruct (negb _); [|apply adds_refl].
  eapply adds_trans; [apply adds_one_node|apply adds_one_edge].
Qed.

Lemma adds_add_links (i : issue) (ls : list link) (gc : graph * list string) :
  adds (fst gc) (fst (add_links i ls gc)).
Proof.
  revert gc. induction ls as [|l r IH]; intros gc; simpl; [apply adds_refl|].
  eapply adds_trans; [|apply IH]. unfold add_link.
  destruct (outwardIssue l) as [o|]; destruct (inwardIssue l) as [c|];
    try apply adds_add_far_end; try apply adds_refl.
  eapply adds_trans; apply adds_add_far_end.
Qed.

(** Any relation between graphs that [add_links] establishes and that
    composes holds between the graphs before and after a walk. *)
Lemma walk_graph_rel (R : graph -> graph -> Prop)
  (Hrefl : forall g, R g g) (Htrans : forall g1 g2 g3, R g1 g2 -> R g2 g3 -> R g1 g3)
  (Hlinks : forall i ls gc, R (fst gc) (fst (add_links i ls gc)))
  (http_issue : string -> exc response) (f : nat) (k : string) (s s' : st) (o : outcome) :
  walk http_issue f k s = (o, s') -> R (st_graph s) (st_graph s').
Proof.
  revert k s s' o. induction f as [|f IH]; intros k s s' o H.
  - simpl in H. injection H as _ <-. apply Hrefl.
  - destruct (get_issue_cases http_issue k) as [[i Hi]|Hi].
    + rewrite (walk_found http_issue f k s i Hi) in H.
      eapply Htrans;
        [|eapply (walk_children_ind _ (fun _ => True) (fun _ => True)
                    (fun s1 _ s2 => R (st_graph s1) (st_graph s2))); [| | | |exact I|exact H]].
      * simpl. exact (Hlinks i (issuelinks i) (st_graph s, [])).
      * intros; apply Hrefl.
      * intros; eapply Htrans; eassumption.
      * intros c s1 o1 s2 _ _ _ Hw. split; [exact (IH _ _ _ _ Hw)|intros; exact I].
      * apply Forall_true.
    + rewrite (walk_failed http_issue f k s Hi) in H. injection H as _ <-. apply Hrefl.
Qed.

Lemma adds_add_dependencies (http_issue : string -> exc response) (fuel : nat) (g : graph) :
  adds g (st_graph (snd (add_dependencies_to_graph http_issue fuel g))).
Proof.
  unfold add_dependencies_to_graph. destruct (nodes g) as [|[n a] r]; [apply adds_refl|].
  destruct (walk http_issue fuel n (mk_st g [] [])) as [o s'] eqn:E. simpl.
  exact (walk_graph_rel adds adds_refl adds_trans adds_add_links http_issue fuel n _ s' o E).
Qed.

Lemma adds_add_epic_issues (epic_key : string) (issues : list issue) (g : graph) :
  adds g (add_epic_issues epic_key issues g).
Proof.
  revert g. induction issues as [|i r IH]; intros g; simpl; [apply adds_refl|].
  eapply adds_trans; [|apply IH]. destruct (negb _); [|apply adds_refl].
  eapply adds_trans; [apply adds_one_node|apply adds_one_edge].
Qed.

Lemma shape_pass_structure (http_epic : string -> exc Z) (g : graph) :
  node_keys (snd (update_shape_on_epics http_epic g)) = node_keys g /\
  edges (snd (update_shape_on_epics http_epic g)) = edges g.
Proof.
  unfold update_shape_on_epics. destruct (shape_nodes http_epic (nodes g)) as [o ns] eqn:E.
  split; [exact (shape_nodes_keys _ _ _ _ E)|reflexivity].
Qed.

Lemma color_pass_structure (http_issue : string -> exc response) (g : graph) :
  node_keys (snd (update_graph_with_issue_progress http_issue g)) = node_keys g /\
  edges (snd (update_graph_with_issue_progress http_issue g)) = edges g.
Proof.
  unfold update_graph_with_issue_progress. destruct (color_nodes http_issue (nodes g)) as [o ns] eqn:E.
  split; [exact (color_nodes_keys _ _ _ _ E)|reflexivity].
Qed.

(** Every graph [run] returns, completed or aborted, is reached from the
    start graph by building steps and the two annotation passes. *)
Lemma run_graph_from_start (P : graph -> Prop)
  (Hadds : forall g g', adds g g' -> P g -> P g')
  (Hsame : forall g g', node_keys g' = node_keys g -> edges g' = edges g -> P g -> P g')
  (http_issue : string -> exc response) (http_epic : string -> exc Z)
  (http_epic_issues : string -> exc (Z * list issue)) (fuel : nat) (expand : bool) (start : string) :
  P (start_graph start) -> P (snd (run http_issue http_epic http_epic_issues fuel expand start)).
Proof.
  intros H0. unfold run.
  pose proof (Hadds _ _ (adds_add_dependencies http_issue fuel (start_graph start)) H0) as H1.
  destruct (add_dependencies_to_graph http_issue fuel (start_graph start)) as [o1 s] eqn:E1.
  simpl in H1. destruct o1; [|exact H1|exact H1].
  destruct (shape_pass_structure http_epic (st_graph s)) as [Ek2 Ee2].
  pose proof (Hsame _ _ Ek2 Ee2 H1) as H2.
  destruct (update_shape_on_epics http_epic (st_graph s)) as [o2 g2] eqn:E2.
  simpl in H2. destruct o2; [|exact H2|exact H2].
  assert (H3 : P (snd (if expand
                       then match get_issues_in_epic http_epic_issues start with
                            | Exc => (Raise ERequest, g2)
                            | Val epic => add_issues_to_graph g2 epic start
                            end
                       else (Done, g2)))).
  { destruct expand; [|exact H2].
    destruct (get_issues_in_epic http_epic_issues start) as [[issues|]|]; [|exact H2|exact H2].
    exact (Hadds _ _ (adds_add_epic_issues start issues g2) H2). }
  destruct (if expand then _ else _) as [o3 g3]. simpl in H3.
  destruct o3; [|exact H3|exact H3].
  destruct (color_pass_structure http_issue g3) as [Ek4 Ee4].
  exact (Hsame _ _ Ek4 Ee4 H3).
Qed.

(** X1: every graph the program produces, at its end or where it aborts,
    has no two nodes with the same key, has both ends of each edge among its
    nodes, and has the start key as its first node. *)
Theorem run_graph_well_formed (http_issue : string -> exc response) (http_epic : string -> exc Z)
  (http_epic_issues : string -> exc (Z * list issue)) (fuel : nat) (expand : bool) (start : string) :
  graph_wf (snd (run http_issue http_epic http_epic_issues fuel expand start)) /\
  exists r, node_keys (snd (run http_issue http_epic http_epic_issues fuel expand start)) = start :: r.
Proof.
  split.
  - apply run_graph_from_start; [exact adds_wf|exact wf_same_structure|].
    split; [repeat constructor; intros []|intros _ []].
  - apply (run_graph_from_start (fun g => exists r, node_keys g = start :: r)).
    + intros g g' Ha [r Er]. destruct (adds_prefix g g' Ha) as [[r' Er'] _].
      exists (r ++ r'). rewrite Er', Er. reflexivity.
    + intros g g' Ek _ [r Er]. exists r. rewrite Ek. exact Er.
    + exists []. reflexivity.
Qed.

(** ** The edges of the walk *)

Lemma NoDup_snoc_pair (l : list (string * string)) (x : string * string) :
  NoDup l -> ~ In x l -> NoDup (l ++ [x]).
Proof.
  induction l as [|y l IH]; simpl; intros Hn Hx.
  - constructor; [intros []|constructor].
  - inversion Hn as [|? ? Hy Hl]; subst. constructor.
    + intros H. apply in_app_or in H as [H|[H|[]]]; [exact (Hy H)|apply Hx; left; symmetry; exact H].
    + apply IH; [exact Hl|intros H; apply Hx; right; exact H].
Qed.

Lemma add_far_end_nodup (gc : graph * list string) (far : linked_issue) (u v lbl : string) :
  NoDup (edge_pairs (fst gc)) -> NoDup (edge_pairs (fst (add_far_end gc far u v lbl))).
Proof.
  destruct gc as [g ch]. unfold add_far_end.
  destruct (py_in (PTup (PStr u) (PStr v)) (edges_py g)) eqn:Ep; cbn [negb fst]; [exact (fun H => H)|].
  intros Hnd. unfold edge_pairs. rewrite edges_add_edge, edges_add_node, map_app. simpl.
  apply NoDup_snoc_pair; [exact Hnd|]. intros Hin. apply py_in_pair in Hin. congruence.
Qed.

Lemma add_links_nodup (i : issue) (ls : list link) (gc : graph * list string) :
  NoDup (edge_pairs (fst gc)) -> NoDup (edge_pairs (fst (add_links i ls gc))).
Proof.
  revert gc. induction ls as [|l r IH]; intros gc H; simpl; [exact H|].
  apply IH. unfold add_link.
  destruct (outwardIssue l) as [o|]; destruct (inwardIssue l) as [c|];
    repeat apply add_far_end_nodup; exact H.
Qed.

Lemma add_link_new_pairs (i : issue) (l : link) (g : graph) (ch : list string) :
  exists ne, edges (fst (add_link i l (g, ch))) = edges g ++ ne /\
             forall e, In e ne -> In (e_src e, e_tgt e) (link_pairs (key i) l).
Proof.
  unfold add_link, link_pairs.
  assert (Hout : exists ne1,
    edges (fst (match outwardIssue l with
                | None => (g, ch)
                | Some o => add_far_end (g, ch) o (key i) (li_key o) (type_outward l) end)) = edges g ++ ne1 /\
    forall e, In e ne1 -> In (e_src e, e_tgt e) (match outwardIssue l with Some o => [(key i, li_key o)] | None => [] end)).
  { destruct (outwardIssue l) as [o|].
    - destruct (add_far_end_spec g ch o (key i) (li_key o) (type_outward l)) as [ne [nc [Ee [_ [Hc _]]]]].
      exists ne. split; [exact Ee|]. destruct Hc as [[-> _]|[-> _]]; [intros _ []|].
      intros e [<-|[]]. left. reflexivity.
    - exists []. rewrite app_nil_r. split; [reflexivity|intros _ []]. }
  destruct Hout as [ne1 [Ee1 He1]].
  destruct (match outwardIssue l with
            | None => (g, ch)
            | Some o => add_far_end (g, ch) o (key i) (li_key o) (type_outward l) end) as [g1 ch1].
  cbn [fst] in Ee1.
  destruct (inwardIssue l) as [c|].
  - destruct (add_far_end_spec g1 ch1 c (li_key c) (key i) (type_outward l)) as [ne [nc [Ee [_ [Hc _]]]]].
    exists (ne1 ++ ne). rewrite Ee, Ee1, app_assoc. split; [reflexivity|].
    intros e He. apply in_app_or in He as [He|He]; apply in_or_app; [left; exact (He1 e He)|right].
    destruct Hc as [[-> _]|[-> _]]; [destruct He|]. destruct He as [<-|[]]. left. reflexivity.
  - exists ne1. split; [exact Ee1|]. intros e He. rewrite app_nil_r. exact (He1 e He).
Qed.

Lemma add_links_new_pairs (i : issue) (ls : list link) (g : graph) (ch : list string) :
  exists ne, edges (fst (add_links i ls (g, ch))) = edges g ++ ne /\
             forall e, In e ne -> In (e_src e, e_tgt e) (flat_map (link_pairs (key i)) ls).
Proof.
  revert g ch. induction ls as [|l r IH]; intros g ch; simpl.
  - exists []. rewrite app_nil_r. split; [reflexivity|intros _ []].
  - destruct (add_link_new_pairs i l g ch) as [ne1 [Ee1 He1]].
    destruct (add_link i l (g, ch)) as [g1 ch1]. cbn [fst] in Ee1.
    destruct (IH g1 ch1) as [ne2 [Ee2 He2]].
    exists (ne1 ++ ne2). rewrite Ee2, Ee1, app_assoc. split; [reflexivity|].
    intros e He. apply in_or_app. apply in_app_or in He as [He|He]; [left|right]; auto.
Qed.

Section SoundWalk.

Variable http_issue : string -> exc response.

Lemma sound_ext_refl (s : st) : sound_ext http_issue s s.
Proof.
  split; [apply st_ext_refl|]. split; [intros p Hp; left; exact Hp|intros k Hk Hn; contradiction].
Qed.

Lemma sound_ext_trans (s1 s2 s3 : st) :
  sound_ext http_issue s1 s2 -> sound_ext http_issue s2 s3 -> sound_ext http_issue s1 s3.
Proof.
  intros [X12 [S12 C12]] [X23 [S23 C23]]. split; [exact (st_ext_trans _ _ _ X12 X23)|]. split.
  - intros p Hp. destruct (S23 p Hp) as [Hp2|Hk]; [|right; exact Hk].
    destruct (S12 p Hp2) as [Hp1|[k [i [Hk Hi]]]]; [left; exact Hp1|right].
    exists k, i. split; [exact (st_ext_seen _ _ _ X23 Hk)|exact Hi].
  - intros k Hk3 Hk1. destruct (in_dec string_dec k (seen s2)) as [Hk2|Hk2].
    + destruct (C12 k Hk2 Hk1) as [i [Hi Hp]]. exists i. split; [exact Hi|].
      intros p Hpi. exact (st_ext_edge_pairs _ _ _ X23 (Hp p Hpi)).
    + exact (C23 k Hk3 Hk2).
Qed.

Lemma walk_sound (f : nat) (k : string) (s s' : st) (o : outcome) :
  walk http_issue f k s = (o, s') -> sound_ext http_issue s s'.
Proof.
  revert k s s' o. induction f as [|f IH]; intros k s s' o H.
  - simpl in H. injection H as _ <-. apply sound_ext_refl.
  - destruct (get_issue_cases http_issue k) as [[i Hi]|Hi].
    + rewrite (walk_found http_issue f k s i Hi) in H.
      eapply sound_ext_trans;
        [|eapply (walk_children_ind _ (fun _ => True) (fun _ => True)
                    (fun s1 _ s2 => sound_ext http_issue s1 s2)); [| | | |exact I|exact H]].
      * destruct (add_links_new_pairs i (issuelinks i) (st_graph s) []) as [ne [Ee He]].
        destruct (add_links_spec i (issuelinks i) (st_graph s) []) as [_ [_ [_ [_ [_ [_ Hp]]]]]].
        split; [exists [k], [k], ne; simpl; auto|]. split.
        -- intros p Hp'. simpl in Hp'. unfold edge_pairs in Hp'. rewrite Ee, map_app in Hp'.
           apply in_app_or in Hp' as [Hp'|Hp']; [left; exact Hp'|right].
           apply in_map_iff in Hp' as [e [<- He']]. exists k, i. simpl.
           split; [apply in_or_app; right; left; reflexivity|]. split; [exact Hi|exact (He e He')].
        -- intros k' Hk' Hn. simpl in Hk'. apply in_app_or in Hk' as [Hk'|[<-|[]]]; [contradiction|].
           exists i. split; [exact Hi|]. exact Hp.
      * intros; apply sound_ext_refl.
      * intros; eapply sound_ext_trans; eassumption.
      * intros c s1 o1 s2 _ _ _ Hw. split; [exact (IH _ _ _ _ Hw)|intros; exact I].
      * apply Forall_true.
    + rewrite (walk_failed http_issue f k s Hi) in H. injection H as _ <-.
      split; [exists [], [k], []; rewrite !app_nil_r; auto|].
      split; [intros p Hp; left; exact Hp|intros k' Hk' Hn; contradiction].
Qed.

End SoundWalk.

(** X2: the walk adds an edge only for an ordered pair that is not an edge
    yet: from a graph without repeated (tail, head) pairs, it builds one
    without repeated pairs, completed or aborted. *)
Theorem walk_no_repeated_edge_pair (http_issue : string -> exc response) (fuel : nat) (g : graph) :
  NoDup (edge_pairs g) ->
  NoDup (edge_pairs (st_graph (snd (add_dependencies_to_graph http_issue fuel g)))).
Proof.
  unfold add_dependencies_to_graph. destruct (nodes g) as [|[n a] r]; [exact (fun H => H)|].
  destruct (walk http_issue fuel n (mk_st g [] [])) as [o s'] eqn:E. simpl.
  exact (walk_graph_rel (fun g1 g2 => NoDup (edge_pairs g1) -> NoDup (edge_pairs g2))
           (fun _ H => H) (fun _ _ _ H12 H23 H => H23 (H12 H))
           (fun i ls gc => add_links_nodup i ls gc) http_issue fuel n _ s' o E).
Qed.

Lemma walk_no_repeated_edge_pair_witness :
  NoDup (edge_pairs (start_graph "DEMO-0")) /\
  NoDup (edge_pairs (st_graph (snd (add_dependencies_to_graph demo_http_issue 4 (start_graph "DEMO-0"))))).
Proof.
  assert (H : NoDup (edge_pairs (start_graph "DEMO-0"))) by constructor.
  exact (conj H (walk_no_repeated_edge_pair demo_http_issue 4 (start_graph "DEMO-0") H)).
Defined.

(** X3: the edges the walk adds are exactly the link pairs of the issues it
    fetched successfully: an ordered pair is an edge of the walked graph iff
    it was an edge before or is (A -> B) or (C -> A) for a link record of a
    fetched issue A, completed walk or aborted. *)
Theorem walk_edges_are_fetched_links (http_issue : string -> exc response) (fuel : nat) (g : graph)
  (p : string * string) :
  In p (edge_pairs (st_graph (snd (add_dependencies_to_graph http_issue fuel g)))) <->
  In p (edge_pairs g) \/
  exists k i, In k (fetched (snd (add_dependencies_to_graph http_issue fuel g))) /\
              get_issue http_issue k = Val (Some i) /\ In p (issue_pairs i).
Proof.
  unfold add_dependencies_to_graph. destruct (nodes g) as [|[n a] r].
  - simpl. split; [intros H; left; exact H|intros [H|[k [i [[] _]]]]; exact H].
  - destruct (walk http_issue fuel n (mk_st g [] [])) as [o s'] eqn:E. cbn [snd].
    destruct (walk_sound http_issue fuel n _ s' o E) as [X [S C]]. cbn [st_graph seen] in S, C.
    pose proof (walk_log http_issue fuel n (mk_st g [] []) s' o (walk_inv_initial _ _) (fun H => H) E) as Hpost.
    assert (Hfs : forall k, In k (seen s') -> In k (fetched s')).
    { intros k Hk. destruct o as [|e|]; simpl in Hpost.
      - destruct Hpost as [-> _]. exact Hk.
      - destruct Hpost as [_ [k' [-> _]]]. apply in_or_app. left. exact Hk.
      - destruct Hpost as [-> _]. exact Hk. }
    assert (Hsf : forall k, In k (fetched s') -> In k (seen s') \/ ~ fetch_ok http_issue k).
    { intros k Hk. destruct o as [|e|]; simpl in Hpost.
      - destruct Hpost as [Hf _]. rewrite Hf in Hk. left. exact Hk.
      - destruct Hpost as [_ [k' [Hf [_ [_ [_ Hbad]]]]]]. rewrite Hf in Hk.
        apply in_app_or in Hk as [Hk|[<-|[]]]; [left; exact Hk|right; exact Hbad].
      - destruct Hpost as [Hf _]. rewrite Hf in Hk. left. exact Hk. }
    split.
    + intros Hp. destruct (S p Hp) as [Hg|[k [i [Hk Hi]]]]; [left; exact Hg|right].
      exists k, i. split; [exact (Hfs k Hk)|exact Hi].
    + intros [Hg|[k [i [Hk [Hi Hp]]]]].
      * exact (st_ext_edge_pairs (mk_st g [] []) s' p X Hg).
      * destruct (Hsf k Hk) as [Hk'|Hbad]; [|exfalso; apply Hbad; exists i; exact Hi].
        destruct (C k Hk' (fun H => H)) as [i' [Hi' Hall]].
        rewrite Hi in Hi'. injection Hi' as <-. exact (Hall p Hp).
Qed.


(** ** The Epic Expander *)

(** X5: with a membership list, [add_issues_to_graph] completes and appends
    exactly one edge (epic -> member) per listed member, in list order,
    whatever edges the graph already has; each member key is a node
    afterwards.  Without one ([None], a non-200 answer) it raises
    [TypeError] and leaves the graph as it was. *)
Theorem expander_appends_one_edge_per_member (g : graph) (issues : list issue) (epic_key : string) :
  fst (add_issues_to_graph g (Some issues) epic_key) = Done /\
  edge_pairs (snd (add_issues_to_graph g (Some issues) epic_key))
  = edge_pairs g ++ map (fun i => (epic_key, key i)) issues /\
  (forall i, In i issues -> In (key i) (node_keys (snd (add_issues_to_graph g (Some issues) epic_key)))) /\
  add_issues_to_graph g None epic_key = (Raise ETypeError, g).
Proof.
  unfold add_issues_to_graph. cbn [fst snd]. split; [reflexivity|]. split; [|split; [|reflexivity]].
  - revert g. induction issues as [|i r IH]; intros g; simpl; [rewrite app_nil_r; reflexivity|].
    rewrite py_in_str_edges. cbn [negb]. rewrite IH.
    unfold edge_pairs at 1. rewrite edges_add_edge, edges_add_node, map_app. simpl.
    rewrite <- app_assoc. reflexivity.
  - revert g. induction issues as [|i r IH]; intros g j Hj; [destruct Hj|].
    simpl. rewrite py_in_str_edges. cbn [negb].
    set (g1 := add_edge epic_key (key i) [("color", "blue"); ("penwidth", "0.5")]
                 (add_node (key i) [("style", "filled"); ("penwidth", "2.0")] g)).
    destruct Hj as [->|Hj]; [|exact (IH g1 j Hj)].
    destruct (adds_prefix _ _ (adds_add_epic_issues epic_key r g1)) as [[r1 E1] _].
    rewrite E1. apply in_or_app. left.
    destruct (node_keys_add_edge epic_key (key j) [("color", "blue"); ("penwidth", "0.5")]
                (add_node (key j) [("style", "filled"); ("penwidth", "2.0")] g)) as [_ [_ [_ Hv]]].
    exact Hv.
Qed.




(** ** The annotation passes *)

(** X8: the colouring pass completes iff every node's fetch gives an issue
    record; otherwise it fails with [TypeError] (a 200-less answer is
    [None], an exception is re-raised as [raise()]). *)
Theorem color_pass_completes_iff_all_fetched (http_issue : string -> exc response) (g : graph) :
  (fst (update_graph_with_issue_progress http_issue g) = Done <->
   forall n, In n (node_keys g) -> fetch_ok http_issue n) /\
  (fst (update_graph_with_issue_progress http_issue g) = Done \/
   fst (update_graph_with_issue_progress http_issue g) = Raise ETypeError).
Proof.
  unfold update_graph_with_issue_progress, node_keys. destruct g as [ns es]. cbn [nodes].
  destruct (color_nodes http_issue ns) as [o ns'] eqn:E. cbn [fst].
  revert o ns' E. induction ns as [|[n a] r IH]; intros o ns' E; simpl in E.
  - injection E as <- _. split; [split; [intros _ _ []|reflexivity]|left; reflexivity].
  - destruct (get_issue http_issue n) as [[i|]|] eqn:Ei.
    + destruct (color_nodes http_issue r) as [o1 r1] eqn:E1. injection E as <- _.
      destruct (IH o1 r1 eq_refl) as [[IH1 IH2] IH3]. split; [|exact IH3]. split.
      * intros Ho m [<-|Hm]; [exists i; exact Ei|exact (IH1 Ho m Hm)].
      * intros Hall. apply IH2. intros m Hm. apply Hall. right. exact Hm.
    + injection E as <- _. split; [|right; reflexivity]. split; [discriminate|].
      intros Hall. destruct (Hall n (or_introl eq_refl)) as [i Hi]. congruence.
    + injection E as <- _. split; [|right; reflexivity]. split; [discriminate|].
      intros Hall. destruct (Hall n (or_introl eq_refl)) as [i Hi]. congruence.
Qed.

(** X9: the epic-shape pass completes iff every node's probe gets an
    answer (any status); a probe that raises makes the pass fail with that
    request error. *)
Theorem shape_pass_completes_iff_all_probed (http_epic : string -> exc Z) (g : graph) :
  (fst (update_shape_on_epics http_epic g) = Done <->
   forall n, In n (node_keys g) -> http_epic n <> Exc) /\
  (fst (update_shape_on_epics http_epic g) = Done \/
   fst (update_shape_on_epics http_epic g) = Raise ERequest).
Proof.
  unfold update_shape_on_epics, node_keys. destruct g as [ns es]. cbn [nodes].
  destruct (shape_nodes http_epic ns) as [o ns'] eqn:E. cbn [fst].
  revert o ns' E. induction ns as [|[n a] r IH]; intros o ns' E; simpl in E.
  - injection E as <- _. split; [split; [intros _ _ []|reflexivity]|left; reflexivity].
  - destruct (http_epic n) as [code|] eqn:Ec.
    + destruct (shape_nodes http_epic r) as [o1 r1] eqn:E1. injection E as <- _.
      destruct (IH o1 r1 eq_refl) as [[IH1 IH2] IH3]. split; [|exact IH3]. split.
      * intros Ho m [Hm|Hm]; [subst m; simpl; rewrite Ec; discriminate|exact (IH1 Ho m Hm)].
      * intros Hall. apply IH2. intros m Hm. apply Hall. right. exact Hm.
    + injection E as <- _. split; [|right; reflexivity]. split; [discriminate|].
      intros Hall. exfalso. exact (Hall n (or_introl eq_refl) Ec).
Qed.

Lemma attr_get_set_other (k k' v : string) (a : attrs) :
  k <> k' -> attr_get k (attr_set k' v a) = attr_get k a.
Proof.
  intros Hk. rewrite attr_get_set. apply String.eqb_neq in Hk. rewrite Hk. reflexivity.
Qed.

(** X10: a completed colouring pass changes no attribute but [fillcolor],
    and leaves a node whose status is none of "To Do", "In Progress" and
    "Done" exactly as it was. *)
Theorem color_pass_touches_only_fillcolor (http_issue : string -> exc response) (g g' : graph) :
  update_graph_with_issue_progress http_issue g = (Done, g') ->
  forall n a', In (n, a') (nodes g') ->
    exists a i, In (n, a) (nodes g) /\ get_issue http_issue n = Val (Some i) /\
      (forall k, k <> "fillcolor" -> attr_get k a' = attr_get k a) /\
      (status_name i <> "To Do" -> status_name i <> "In Progress" -> status_name i <> "Done" -> a' = a).
Proof.
  unfold update_graph_with_issue_progress.
  destruct (color_nodes http_issue (nodes g)) as [o ns] eqn:E. intros H.
  injection H as -> <-. destruct (color_nodes_done _ _ _ E) as [Hin _].
  intros n a' Ha. destruct (Hin n a' Ha) as [a [i [Ha0 [Hi ->]]]].
  exists a, i. split; [exact Ha0|]. split; [exact Hi|]. unfold color_attr. split.
  - intros k Hk.
    destruct (String.eqb (status_name i) "To Do"); [apply attr_get_set_other; exact Hk|].
    destruct (String.eqb (status_name i) "In Progress"); [apply attr_get_set_other; exact Hk|].
    destruct (String.eqb (status_name i) "Done"); [apply attr_get_set_other; exact Hk|reflexivity].
  - intros H1 H2 H3. apply String.eqb_neq in H1, H2, H3. rewrite H1, H2, H3. reflexivity.
Qed.

Lemma color_pass_touches_only_fillcolor_witness :
  update_graph_with_issue_progress demo_http_issue
    (mk_graph [("DEMO-1", [("shape", "folder")])] [])
  = (Done, mk_graph [("DEMO-1", [("shape", "folder"); ("fillcolor", "white")])] []) /\
  forall n a', In (n, a') (nodes (mk_graph [("DEMO-1", [("shape", "folder"); ("fillcolor", "white")])] [])) ->
    exists a i, In (n, a) (nodes (mk_graph [("DEMO-1", [("shape", "folder")])] [])) /\
      get_issue demo_http_issue n = Val (Some i) /\
      (forall k, k <> "fillcolor" -> attr_get k a' = attr_get k a) /\
      (status_name i <> "To Do" -> status_name i <> "In Progress" -> status_name i <> "Done" -> a' = a).
Proof.
  assert (H : update_graph_with_issue_progress demo_http_issue
                (mk_graph [("DEMO-1", [("shape", "folder")])] [])
              = (Done, mk_graph [("DEMO-1", [("shape", "folder"); ("fillcolor", "white")])] []))
    by (vm_compute; reflexivity).
  exact (conj H (color_pass_touches_only_fillcolor demo_http_issue _ _ H)).
Defined.

Lemma shape_nodes_again (http_epic : string -> exc Z) (ns ns' : list (string * attrs)) :
  shape_nodes http_epic ns = (Done, ns') -> shape_nodes http_epic ns' = (Done, ns').
Proof.
  revert ns'. induction ns as [|[n a] r IH]; simpl; intros ns' H.
  - injection H as <-. reflexivity.
  - destruct (http_epic n) as [code|] eqn:Ec; [|discriminate].
    destruct (shape_nodes http_epic r) as [o1 r1] eqn:E. injection H as -> <-.
    simpl. rewrite Ec, (IH r1 eq_refl).
    destruct (Z.eqb code 200); [rewrite attr_set_idem|]; reflexivity.
Qed.

(** X11: a completed epic-shape pass sets [shape] to "folder" on the nodes
    whose probe answers 200, changing nothing else on them, and leaves every
    other node exactly as it was; running the pass again on its result
    changes nothing. *)
Theorem shape_pass_effect_idempotent (http_epic : string -> exc Z) (g g' : graph) :
  update_shape_on_epics http_epic g = (Done, g') ->
  (forall n a', In (n, a') (nodes g') ->
     exists a code, In (n, a) (nodes g) /\ http_epic n = Val code /\
       (code = 200%Z -> attr_get "shape" a' = Some "folder" /\
                        forall k, k <> "shape" -> attr_get k a' = attr_get k a) /\
       (code <> 200%Z -> a' = a)) /\
  update_shape_on_epics http_epic g' = (Done, g').
Proof.
  unfold update_shape_on_epics.
  destruct (shape_nodes http_epic (nodes g)) as [o ns] eqn:E. intros H.
  injection H as -> <-. split.
  - intros n a' Ha. destruct (shape_nodes_done _ _ _ E n a' Ha) as [a [code [Ha0 [Hc ->]]]].
    exists a, code. split; [exact Ha0|]. split; [exact Hc|]. split.
    + intros ->. simpl. split; [rewrite attr_get_set; reflexivity|].
      intros k Hk. apply attr_get_set_other. exact Hk.
    + intros Hn. apply Z.eqb_neq in Hn. rewrite Hn. reflexivity.
  - simpl. rewrite (shape_nodes_again _ _ _ E). reflexivity.
Qed.

Lemma shape_pass_effect_idempotent_witness :
  update_shape_on_epics demo_http_epic (mk_graph [("DEMO-0", []); ("DEMO-1", [("style", "filled")])] [])
  = (Done, mk_graph [("DEMO-0", [("shape", "folder")]); ("DEMO-1", [("style", "filled")])] []) /\
  ((forall n a', In (n, a') (nodes (mk_graph [("DEMO-0", [("shape", "folder")]); ("DEMO-1", [("style", "filled")])] [])) ->
     exists a code, In (n, a) (nodes (mk_graph [("DEMO-0", []); ("DEMO-1", [("style", "filled")])] [])) /\
       demo_http_epic n = Val code /\
       (code = 200%Z -> attr_get "shape" a' = Some "folder" /\
                        forall k, k <> "shape" -> attr_get k a' = attr_get k a) /\
       (code <> 200%Z -> a' = a)) /\
   update_shape_on_epics demo_http_epic
     (mk_graph [("DEMO-0", [("shape", "folder")]); ("DEMO-1", [("style", "filled")])] [])
   = (Done, mk_graph [("DEMO-0", [("shape", "folder")]); ("DEMO-1", [("style", "filled")])] [])).
Proof.
  assert (H : update_shape_on_epics demo_http_epic (mk_graph [("DEMO-0", []); ("DEMO-1", [("style", "filled")])] [])
              = (Done, mk_graph [("DEMO-0", [("shape", "folder")]); ("DEMO-1", [("style", "filled")])] []))
    by (vm_compute; reflexivity).
  exact (conj H (shape_pass_effect_idempotent demo_http_epic _ _ H)).
Defined.

(** ** Where the walk starts *)

